(** * Minesweeper knowledge engine (week1/projects1/minesweeper/minesweeper.py)

    A shallow embedding of the classes [Minesweeper], [Sentence] and
    [MinesweeperAI], the properties of the engine that the specification
    states, and further properties of the engine and of the game.

    Python values are modelled as follows.
    - an [int] is a [Z]; a cell [(i, j)] is a pair of [Z];
    - a [set] of cells is a [gset (Z * Z)];
    - the list [self.knowledge] is a [list] of sentence values.  Every
      [Sentence] object is created by [Sentence(...)], which copies its
      cells ([set(cells)]), and is appended to the list once, so no two list
      entries alias each other and a list of values is a faithful store;
    - a [set] of sentences ([__hash__] is the count, [__eq__] compares cells
      and count) is a duplicate-free list in insertion order; the order in
      which Python iterates over such a set is not fixed by the language, so
      it is a parameter of the model ([set_order]);
    - a raised exception is an outcome of its own, carrying the state the
      object is left in. *)

From stdpp Require Import gmap sets list.
From Stdlib Require Import ZArith Lia.

Local Open Scope Z_scope.
Set Warnings "-clear-no-such-hyp".

Abbreviation cell := (Z * Z)%type.

(** The exceptions the modelled code can raise: [ValueError] ([list.remove]
    of an absent element, [random.randrange] of an empty range),
    [IndexError] (a list index out of range) and the [Exception] that
    [add_knowledge] raises itself. *)
Inductive exn : Type := ValueError | IndexError | Exception.

#[global] Instance exn_eq_dec : EqDecision exn.
Proof. solve_decision. Defined.

(** ** Sets of sentences, and the order of iteration over a Python set *)

Section list_sets.
Context {A : Type} `{EqDecision A}.

(** [s.add(x)]: nothing happens when an equal element is present. *)
Definition set_add (x : A) (s : list A) : list A :=
  if decide (x ∈ s) then s else s ++ [x].

(** [l.remove(x)]: drops the first element equal to [x]; [None] stands for
    the [ValueError] of a list that holds no such element. *)
Fixpoint list_remove_first (x : A) (l : list A) : option (list A) :=
  match l with
  | [] => None
  | y :: l' =>
      if decide (x = y) then Some l'
      else cons y <$> list_remove_first x l'
  end.

(** [for x in xs: l.remove(x)]: the list the loop leaves, and the
    exception that stopped it, if any. *)
Fixpoint remove_each (xs : list A) (l : list A) : list A * option exn :=
  match xs with
  | [] => (l, None)
  | x :: xs' =>
      match list_remove_first x l with
      | Some l' => remove_each xs' l'
      | None => (l, Some ValueError)
      end
  end.
End list_sets.

(** ** class Sentence *)

Module Sentence.

Record t : Type := Make { cells : gset cell; count : Z }.

#[global] Instance eq_dec : EqDecision t.
Proof. solve_decision. Defined.

(** [known_mines]: [self.cells] when [self.count == len(self.cells)],
    otherwise [None]. *)
Definition known_mines (s : t) : option (gset cell) :=
  if decide (count s = Z.of_nat (size (cells s))) then Some (cells s)
  else None.

(** [known_safes]: [self.cells] when [self.count == 0], otherwise [None]. *)
Definition known_safes (s : t) : option (gset cell) :=
  if decide (count s = 0) then Some (cells s) else None.

Definition mark_mine (s : t) (c : cell) : t :=
  if decide (c ∈ cells s)
  then {| cells := cells s ∖ {[c]}; count := count s - 1 |}
  else s.

Definition mark_safe (s : t) (c : cell) : t :=
  if decide (c ∈ cells s)
  then {| cells := cells s ∖ {[c]}; count := count s |}
  else s.

(** The truth value Python gives the result of [known_mines] and
    [known_safes] in [if known_safes:]: [None] and the empty set are
    false. *)
Definition truthy (r : option (gset cell)) : bool :=
  match r with
  | Some X => bool_decide (X ≠ ∅)
  | None => false
  end.


End Sentence.

Abbreviation Sentence := Sentence.t.

(** The order in which a run iterates over its two sets that are not sets
    of cells: [subsets] (pairs of list indices) and the sets of sentences
    [sentences_to_remove] and [sentences_to_add].  Any order is possible; an
    order only permutes. *)
Record set_order : Type := SetOrder {
  order_pairs : list (nat * nat) → list (nat * nat);
  order_sentences : list Sentence → list Sentence;
  order_pairs_perm : ∀ l, order_pairs l ≡ₚ l;
  order_sentences_perm : ∀ l, order_sentences l ≡ₚ l
}.

(** Iteration in insertion order. *)
Definition insertion_order : set_order :=
  {| order_pairs := λ l, l;
     order_sentences := λ l, l;
     order_pairs_perm := λ l, reflexivity l;
     order_sentences_perm := λ l, reflexivity l |}.

(** Iteration in reverse insertion order. *)
Definition reverse_order : set_order :=
  {| order_pairs := reverse;
     order_sentences := reverse;
     order_pairs_perm := reverse_Permutation;
     order_sentences_perm := reverse_Permutation |}.

(** The order in which a run iterates over a set of cells, where the
    order shows in the result: any order of the elements of the set. *)
Record cell_order : Type := CellOrder {
  order_cells : gset cell → list cell;
  order_cells_perm : ∀ X, order_cells X ≡ₚ elements X
}.

(** [range(a - 1, a + 2)], the rows and the columns that the loops over
    the cells around a cell go through. *)
Definition around (a : Z) : list Z := [a - 1; a; a + 1].

(** ** class MinesweeperAI *)

Module MinesweeperAI.

Record t : Type := Make {
  height : Z;
  width : Z;
  moves_made : gset cell;
  mines : gset cell;
  safes : gset cell;
  knowledge : list Sentence
}.

(** [__init__] *)
Definition init (h w : Z) : t :=
  {| height := h; width := w; moves_made := ∅; mines := ∅; safes := ∅;
     knowledge := [] |}.

Definition mark_mine (ai : t) (c : cell) : t :=
  {| height := height ai; width := width ai;
     moves_made := moves_made ai;
     mines := {[c]} ∪ mines ai;
     safes := safes ai;
     knowledge := (λ s, Sentence.mark_mine s c) <$> knowledge ai |}.

Definition mark_safe (ai : t) (c : cell) : t :=
  {| height := height ai; width := width ai;
     moves_made := moves_made ai;
     mines := mines ai;
     safes := {[c]} ∪ safes ai;
     knowledge := (λ s, Sentence.mark_safe s c) <$> knowledge ai |}.

Definition get_neighbors (ai : t) (c : cell) : gset cell :=
  foldl (λ neighbors i,
    foldl (λ neighbors j,
      if decide ((i, j) = c) then neighbors
      else if decide (0 ≤ i < height ai ∧ 0 ≤ j < width ai)
           then {[(i, j)]} ∪ neighbors
           else neighbors)
      neighbors (around c.2))
    ∅ (around c.1).

(** *** add_knowledge, Steps 1 to 3

    The move is recorded, the cell is marked safe in every sentence, and
    the sentence of the cell's neighbours, less the known safes and the
    known mines, is appended. *)
Definition record_move (ai : t) (c : cell) (n : Z) : t :=
  let moves_made' := {[c]} ∪ moves_made ai in
  let safes' := {[c]} ∪ safes ai in
  let knowledge' := (λ s, Sentence.mark_safe s c) <$> knowledge ai in
  let neigbors := get_neighbors ai c in
  let new_sentence := Sentence.Make neigbors n in
  let new_sentence :=
    set_fold (λ safe_cell s, Sentence.mark_safe s safe_cell)
      new_sentence safes' in
  let new_sentence :=
    set_fold (λ mine s, Sentence.mark_mine s mine)
      new_sentence (mines ai) in
  {| height := height ai; width := width ai;
     moves_made := moves_made';
     mines := mines ai;
     safes := safes';
     knowledge := knowledge' ++ [new_sentence] |}.

(** *** add_knowledge, Step 4 *)

Record inferred : Type := Inferred {
  inferred_safes : gset cell;
  inferred_mines : gset cell;
  sentences_to_remove : list Sentence
}.

(** The body of the loop of Step 4.3. *)
Definition scan_sentence (acc : inferred) (sentence : Sentence) : inferred :=
  let known_safes := Sentence.known_safes sentence in
  let known_mines := Sentence.known_mines sentence in
  let acc :=
    if Sentence.truthy known_safes
    then {| inferred_safes := inferred_safes acc ∪ default ∅ known_safes;
            inferred_mines := inferred_mines acc;
            sentences_to_remove := set_add sentence (sentences_to_remove acc) |}
    else acc in
  if Sentence.truthy known_mines
  then {| inferred_safes := inferred_safes acc;
          inferred_mines := inferred_mines acc ∪ default ∅ known_mines;
          sentences_to_remove := set_add sentence (sentences_to_remove acc) |}
  else acc.

Definition scan (KB : list Sentence) : inferred :=
  foldl scan_sentence (Inferred ∅ ∅ []) KB.

(** Steps 4.1 to 4.5: the inferred cells join [safes] and [mines], and
    one sentence is removed from the list for each distinct sentence that
    gave a fact. *)
Definition infer_cells (o : set_order) (ai : t) : t * option exn :=
  let inf := scan (knowledge ai) in
  let '(knowledge', e) :=
    remove_each (order_sentences o (sentences_to_remove inf)) (knowledge ai) in
  ({| height := height ai; width := width ai;
      moves_made := moves_made ai;
      mines := mines ai ∪ inferred_mines inf;
      safes := safes ai ∪ inferred_safes inf;
      knowledge := knowledge' |}, e).

(** *** add_knowledge, Step 5 *)

(** Step 5.2: the set [subsets], in the order of its construction. *)
Definition subset_pairs (KB : list Sentence) : list (nat * nat) :=
  i ← seq 0 (length KB);
  j ← seq (S i) (length KB - S i)%nat;
  match KB !! i, KB !! j with
  | Some si, Some sj =>
      if decide (Sentence.cells si ⊆ Sentence.cells sj) then [(i, j)]
      else if decide (Sentence.cells sj ⊆ Sentence.cells si) then [(j, i)]
      else []
  | _, _ => []
  end.

(** Step 5.3: the loop over [subsets], which fills [sentences_to_add] or
    raises. *)
Fixpoint derive (KB : list Sentence) (subsets : list (nat * nat))
    (sentences_to_add : list Sentence) : exn + list Sentence :=
  match subsets with
  | [] => inr sentences_to_add
  | (i, j) :: subsets' =>
      match KB !! i, KB !! j with
      | Some si, Some sj =>
          let new_cells := Sentence.cells sj ∖ Sentence.cells si in
          let new_count := Sentence.count sj - Sentence.count si in
          if decide (new_count < 0) then inl Exception
          else derive KB subsets'
                 (set_add (Sentence.Make new_cells new_count) sentences_to_add)
      | _, _ => inl IndexError
      end
  end.

(** Steps 5.1 to 5.4. *)
Definition infer_sentences (o : set_order) (ai : t) : t * option exn :=
  let KB := knowledge ai in
  match derive KB (order_pairs o (subset_pairs KB)) [] with
  | inr sentences_to_add =>
      ({| height := height ai; width := width ai;
          moves_made := moves_made ai;
          mines := mines ai;
          safes := safes ai;
          knowledge := KB ++ order_sentences o sentences_to_add |}, None)
  | inl e => (ai, Some e)
  end.

(** [add_knowledge(cell, count)]: the state the call leaves, and the
    exception it raised, if any. *)
Definition add_knowledge (o : set_order) (ai : t) (c : cell) (n : Z)
    : t * option exn :=
  match infer_cells o (record_move ai c n) with
  | (ai', None) => infer_sentences o ai'
  | (ai', Some e) => (ai', Some e)
  end.

(** *** make_safe_move

    The loop over [self.safes], in the order [safes] in which the run
    visits the set. *)
Fixpoint safe_move_loop (ai : t) (safes : list cell) : option cell :=
  match safes with
  | [] => None
  | safe_cell :: safes' =>
      if decide (safe_cell ∉ moves_made ai) then Some safe_cell
      else safe_move_loop ai safes'
  end.

Definition make_safe_move (co : cell_order) (ai : t) : option cell :=
  safe_move_loop ai (order_cells co (safes ai)).

(** *** make_random_move

    The generator is any sequence of integers.  [random.randrange(n)]
    turns the next number [r] of the sequence into a number from 0 to
    [n - 1], so that every sequence of draws is the image of a generator;
    it raises [ValueError] when the range is empty. *)
Definition randrange (r : Z) (n : Z) : exn + Z :=
  if decide (0 < n) then inr (r `mod` n) else inl ValueError.

(** The cell of round [k] of the loop: the numbers [2k] and [2k+1] of the
    generator, each brought into its range. *)
Definition draw (ai : t) (rng : nat → Z) (k : nat) : exn + cell :=
  match randrange (rng (2 * k)%nat) (height ai) with
  | inl e => inl e
  | inr i =>
      match randrange (rng (2 * k + 1)%nat) (width ai) with
      | inl e => inl e
      | inr j => inr (i, j)
      end
  end.

(** The [while True] loop from its round [k] on, with the counter
    [moves_available] of the source; [rounds] bounds the number of rounds
    of the model, and [make_random_move] gives it a bound the loop never
    reaches ([random_loop_rounds]). *)
Fixpoint random_loop (ai : t) (rng : nat → Z) (k : nat)
    (moves_available : Z) (rounds : nat) : exn + option cell :=
  match rounds with
  | O => inr None
  | S rounds' =>
      match draw ai rng k with
      | inl e => inl e
      | inr random_move =>
          if decide ((random_move ∉ moves_made ai) ∧ (random_move ∉ mines ai))
          then inr (Some random_move)
          else
            let moves_available := moves_available - 1 in
            if decide (moves_available = 0) then inr None
            else random_loop ai rng (S k) moves_available rounds'
      end
  end.

Definition make_random_move (ai : t) (rng : nat → Z) : exn + option cell :=
  let board_height := height ai in
  let board_width := width ai in
  let moves_available := board_height * board_width in
  random_loop ai rng 0 moves_available (S (Z.to_nat moves_available)).

End MinesweeperAI.

(** ** Python lists and ranges *)

(** [l[i]]: a negative index counts from the end of the list, and an index
    that is still outside the list raises [IndexError]. *)
Definition py_index {A : Type} (l : list A) (i : Z) : exn + A :=
  let k := if decide (i < 0) then Z.of_nat (length l) + i else i in
  if decide (k < 0) then inl IndexError
  else match l !! Z.to_nat k with
       | Some x => inr x
       | None => inl IndexError
       end.

(** [range(n)] *)
Definition py_range (n : Z) : list Z := seqZ 0 n.

(** ** class Minesweeper

    The game.  The random numbers that [__init__] draws are those of a
    generator, any sequence of integers, as for [make_random_move]; the loop
    that places the mines need not end, so the model runs it for a number of
    rounds and gives [None] when that number does not suffice. *)

Module Minesweeper.

Record t : Type := Make {
  height : Z;
  width : Z;
  mines : gset cell;
  board : list (list bool);
  mines_found : gset cell
}.

(** [self.board[i][j]] *)
Definition board_at (g : t) (i j : Z) : exn + bool :=
  match py_index (board g) i with
  | inl e => inl e
  | inr row => py_index row j
  end.

(** The field without mines that [__init__] builds, a fresh list for each
    row. *)
Definition empty_board (h w : Z) : list (list bool) :=
  foldl (λ board i,
    let row := foldl (λ row j, row ++ [false]) [] (py_range w) in
    board ++ [row])
    [] (py_range h).

(** The loop [while len(self.mines) != mines] from its round [k] on.  The
    two numbers drawn are in range, so [self.board[i][j] = True] writes
    inside the board once [self.board[i][j]] has been read. *)
Fixpoint place_mines (rng : nat → Z) (k : nat) (wanted : Z) (g : t)
    (rounds : nat) : option (exn + t) :=
  if decide (Z.of_nat (size (mines g)) ≠ wanted) then
    match rounds with
    | O => None
    | S rounds' =>
        match MinesweeperAI.randrange (rng (2 * k)%nat) (height g) with
        | inl e => Some (inl e)
        | inr i =>
            match MinesweeperAI.randrange (rng (2 * k + 1)%nat) (width g) with
            | inl e => Some (inl e)
            | inr j =>
                match board_at g i j with
                | inl e => Some (inl e)
                | inr true => place_mines rng (S k) wanted g rounds'
                | inr false =>
                    place_mines rng (S k) wanted
                      {| height := height g; width := width g;
                         mines := {[(i, j)]} ∪ mines g;
                         board :=
                           alter (λ row, <[Z.to_nat j := true]> row)
                             (Z.to_nat i) (board g);
                         mines_found := mines_found g |}
                      rounds'
                end
            end
        end
    end
  else Some (inr g).

(** [__init__(height, width, mines)]: the game, the exception raised, or
    [None] when the mines are not placed within [rounds] rounds. *)
Definition init (h w wanted : Z) (rng : nat → Z) (rounds : nat)
    : option (exn + t) :=
  place_mines rng 0 wanted
    {| height := h; width := w; mines := ∅; board := empty_board h w;
       mines_found := ∅ |}
    rounds.

Definition is_mine (g : t) (c : cell) : exn + bool := board_at g c.1 c.2.

(** [nearby_mines]: the number of mines within one row and column of the
    cell, the cell itself left out. *)
Definition nearby_mines (g : t) (c : cell) : exn + Z :=
  foldl (λ count i,
    foldl (λ count j,
      match count with
      | inl e => inl e
      | inr count =>
          if decide ((i, j) = c) then inr count
          else if decide (0 ≤ i < height g ∧ 0 ≤ j < width g)
               then match board_at g i j with
                    | inl e => inl e
                    | inr true => inr (count + 1)
                    | inr false => inr count
                    end
               else inr count
      end)
      count (around c.2))
    (inr 0) (around c.1).

(** [won] *)
Definition won (g : t) : bool := bool_decide (mines_found g = mines g).

End Minesweeper.

(** * The vocabulary of the properties *)

Abbreviation AI := MinesweeperAI.t.

(** ** The steps of add_knowledge *)

(** Steps 1 to 3: the sentence appended is the neighbours that are neither
    known safe nor known mines, with the count less the known mines among
    them. *)
Definition fresh_sentence (ai : AI) (c : cell) (n : Z) : Sentence :=
  let unknown := MinesweeperAI.get_neighbors ai c ∖ ({[c]} ∪ MinesweeperAI.safes ai) in
  Sentence.Make (unknown ∖ MinesweeperAI.mines ai)
    (n - Z.of_nat (size (unknown ∩ MinesweeperAI.mines ai))).

(** The whole call is Step 5 run on the state that Steps 1 to 4 leave. *)
Definition after_step4 (o : set_order) (ai : AI) (c : cell) (n : Z) : AI :=
  (MinesweeperAI.infer_cells o (MinesweeperAI.record_move ai c n)).1.

(** A sentence gives a fact when [known_safes] or [known_mines] returns a
    set that is not empty. *)
Definition gives_safes (s : Sentence) : Prop :=
  Sentence.count s = 0 ∧ Sentence.cells s ≠ ∅.

Definition gives_mines (s : Sentence) : Prop :=
  Sentence.count s = Z.of_nat (size (Sentence.cells s)) ∧ Sentence.cells s ≠ ∅.

(** ** The subset step *)

(** [selects KB i j]: the step derives a sentence from [KB[i]] as the
    smaller and [KB[j]] as the larger sentence.  Of two sentences with the
    same cells, the one that comes first in the list is taken as the
    smaller one. *)
Definition selects (KB : list Sentence) (i j : nat) : Prop :=
  ∃ a b, KB !! i = Some a ∧ KB !! j = Some b ∧
    Sentence.cells a ⊆ Sentence.cells b ∧
    ((i < j)%nat ∨ ((j < i)%nat ∧ ¬ Sentence.cells b ⊆ Sentence.cells a)).

(** The sentence derived from a smaller sentence [a] and a larger [b]. *)
Definition derived (a b : Sentence) : Sentence :=
  Sentence.Make (Sentence.cells b ∖ Sentence.cells a)
    (Sentence.count b - Sentence.count a).

(** Every selected pair is a pair of positions of the list. *)
Definition in_range (KB : list Sentence) (ps : list (nat * nat)) : Prop :=
  ∀ i j, (i, j) ∈ ps → is_Some (KB !! i) ∧ is_Some (KB !! j).

(** [pair_of KB a b]: the subset step derives a sentence from [a] as the
    smaller and [b] as the larger sentence of [KB]. *)
Definition pair_of (KB : list Sentence) (a b : Sentence) : Prop :=
  ∃ i j, selects KB i j ∧ KB !! i = Some a ∧ KB !! j = Some b.

(** ** Boards *)

(** [M] is the set of the cells of the board that hold a mine.  A sentence
    holds on the board when its count is the number of its cells that are
    mines, and a state is consistent with the board when its known mines are
    mines, its known safes are not, and its sentences hold.  An observation
    [(c, n)] is truthful when [c] is no mine and [n] is the number of mines
    among the neighbours of [c], which is what [Minesweeper.nearby_mines]
    returns ([nearby_mines_truthful]). *)

Definition holds (M : gset cell) (s : Sentence) : Prop :=
  Sentence.count s = Z.of_nat (size (Sentence.cells s ∩ M)).

Record consistent (M : gset cell) (ai : AI) : Prop := Consistent {
  consistent_mines : MinesweeperAI.mines ai ⊆ M;
  consistent_safes : MinesweeperAI.safes ai ## M;
  consistent_knowledge : ∀ s, s ∈ MinesweeperAI.knowledge ai → holds M s
}.

Definition truthful (M : gset cell) (ai : AI) (c : cell) (n : Z) : Prop :=
  (c ∉ M) ∧ n = Z.of_nat (size (MinesweeperAI.get_neighbors ai c ∩ M)).

(** The states a game on the board [M] goes through: a fresh engine, the
    state a truthful observation leaves, whatever the order of iteration of
    that call, and the state left by marking a mine as a mine or a cell
    without a mine as safe. *)
Inductive reachable (M : gset cell) : AI → Prop :=
  | reachable_init h w : reachable M (MinesweeperAI.init h w)
  | reachable_add_knowledge o ai c n :
      reachable M ai → truthful M ai c n →
      reachable M (MinesweeperAI.add_knowledge o ai c n).1
  | reachable_mark_mine ai c :
      reachable M ai → c ∈ M → reachable M (MinesweeperAI.mark_mine ai c)
  | reachable_mark_safe ai c :
      reachable M ai → c ∉ M → reachable M (MinesweeperAI.mark_safe ai c).

(** ** The random move *)

(** The cell that round [k] draws on a grid that is not empty. *)
Definition cell_of (ai : AI) (rng : nat → Z) (k : nat) : cell :=
  (rng (2 * k)%nat `mod` MinesweeperAI.height ai,
   rng (2 * k + 1)%nat `mod` MinesweeperAI.width ai).

Definition in_grid (ai : AI) (c : cell) : Prop :=
  0 ≤ c.1 < MinesweeperAI.height ai ∧ 0 ≤ c.2 < MinesweeperAI.width ai.

(** A cell the move may choose: not yet chosen and not known to be a mine. *)
Definition candidate (ai : AI) (c : cell) : Prop :=
  (c ∉ MinesweeperAI.moves_made ai) ∧ (c ∉ MinesweeperAI.mines ai).

#[global] Instance candidate_dec ai c : Decision (candidate ai c).
Proof. unfold candidate. apply _. Defined.

(** The first candidate among the cells of the rounds [k] to [k + r - 1]. *)
Fixpoint first_candidate (ai : AI) (rng : nat → Z) (k r : nat) : option cell :=
  match r with
  | O => None
  | S r' =>
      if decide (candidate ai (cell_of ai rng k)) then Some (cell_of ai rng k)
      else first_candidate ai rng (S k) r'
  end.

(** ** The cells around a cell *)

(** The nine cells that the loops of [get_neighbors] and [nearby_mines] go
    through, in the order of the loops. *)
Definition block (c : cell) : list cell :=
  i ← around c.1; j ← around c.2; [(i, j)].

(** ** Plays of the engine *)

(** The states that calls of [add_knowledge] reach from a fresh engine,
    whatever the cells and the counts. *)
Inductive played : AI → Prop :=
  | played_init h w : played (MinesweeperAI.init h w)
  | played_add_knowledge o ai c n :
      played ai → played (MinesweeperAI.add_knowledge o ai c n).1.

(** The cells of the sentences and the known mines are cells of the
    board. *)
Definition within_grid (ai : AI) : Prop :=
  (∀ s x, s ∈ MinesweeperAI.knowledge ai → x ∈ Sentence.cells s → in_grid ai x) ∧
  (∀ x, x ∈ MinesweeperAI.mines ai → in_grid ai x).

(** ** The game *)

(** The board with a mine at exactly the cells of [M]: the list of the
    rows [0] to [h - 1], each the list of the columns [0] to [w - 1]. *)
Definition board_of (h w : Z) (M : gset cell) : list (list bool) :=
  (λ i, (λ j, bool_decide ((i, j) ∈ M)) <$> py_range w) <$> py_range h.

Definition on_board (g : Minesweeper.t) (c : cell) : Prop :=
  0 ≤ c.1 < Minesweeper.height g ∧ 0 ≤ c.2 < Minesweeper.width g.

#[global] Instance on_board_dec g c : Decision (on_board g c).
Proof. unfold on_board. apply _. Defined.

(** The two records of the mines that a game keeps agree: [board] holds
    [True] exactly at the cells of [mines], which are cells of the board.
    [__init__] establishes this ([place_mines_returns]) and no method
    writes to either field. *)
Record well_formed (g : Minesweeper.t) : Prop := WellFormed {
  wf_board :
    Minesweeper.board g =
    board_of (Minesweeper.height g) (Minesweeper.width g) (Minesweeper.mines g);
  wf_mines : ∀ c, c ∈ Minesweeper.mines g → on_board g c
}.

(** The position that Python reads for the index [i] of a list of length
    [n]: a negative index counts from the end. *)
Definition wrap (n i : Z) : Z := if decide (i < 0) then n + i else i.

(** The cell that round [k] of the loop of [__init__] draws on a board of
    [h] rows and [w] columns, and the set of the cells drawn in the [r]
    rounds from round [k] on. *)
Definition drawn_cell (h w : Z) (rng : nat → Z) (k : nat) : cell :=
  (rng (2 * k)%nat `mod` h, rng (2 * k + 1)%nat `mod` w).

Definition drawn (h w : Z) (rng : nat → Z) (k r : nat) : gset cell :=
  list_to_set (drawn_cell h w rng <$> seq k r).

(** A generator that goes through the cells of a board of [w] columns row
    by row: round [k] draws the row [k / w] and the column [k mod w]. *)
Definition row_major (w : Z) (n : nat) : Z :=
  let k := Z.of_nat (n `div` 2) in
  if Nat.even n then k `div` w else k `mod` w.

(** The game with a mine at [c] as well. *)
Definition with_mine (g : Minesweeper.t) (c : cell) : Minesweeper.t :=
  {| Minesweeper.height := Minesweeper.height g;
     Minesweeper.width := Minesweeper.width g;
     Minesweeper.mines := {[c]} ∪ Minesweeper.mines g;
     Minesweeper.board :=
       board_of (Minesweeper.height g) (Minesweeper.width g)
         ({[c]} ∪ Minesweeper.mines g);
     Minesweeper.mines_found := Minesweeper.mines_found g |}.

(** The states of the engine in a game played on [g]: the engine starts
    with the height and the width of the game, and each cell it is told
    about is a cell that [is_mine] reports to hold no mine, with the count
    that [nearby_mines] returns for it. *)
Inductive plays (g : Minesweeper.t) : AI → Prop :=
  | plays_init :
      plays g (MinesweeperAI.init (Minesweeper.height g) (Minesweeper.width g))
  | plays_move o ai c n :
      plays g ai →
      Minesweeper.is_mine g c = inr false →
      Minesweeper.nearby_mines g c = inr n →
      plays g (MinesweeperAI.add_knowledge o ai c n).1.

(** ** Growth of the known sets *)

Definition grows (ai ai' : AI) : Prop :=
  MinesweeperAI.safes ai ⊆ MinesweeperAI.safes ai' ∧
  MinesweeperAI.mines ai ⊆ MinesweeperAI.mines ai' ∧
  MinesweeperAI.moves_made ai ⊆ MinesweeperAI.moves_made ai'.

(** ** Games *)

(** A game on a board of two rows and four columns: the cell [(0, 3)] has
    been observed with no mine around it, which makes its three neighbours
    safe, and the cell [(0, 0)] with one mine around it. *)
Definition scenario3_before : AI :=
  (MinesweeperAI.add_knowledge insertion_order
     (MinesweeperAI.add_knowledge insertion_order
        (MinesweeperAI.init 2 4) (0, 3) 0).1 (0, 0) 1).1.

(** The observation of [(0, 2)], with one mine around it. *)
Definition scenario3_after : AI :=
  (MinesweeperAI.add_knowledge insertion_order scenario3_before (0, 2) 1).1.

(** A game on a board of one row and four columns, after the observation
    of [(0, 1)] with one mine around it: the knowledge is the sentence
    [({(0, 0), (0, 2)}, 1)]. *)
Definition stale_before : AI :=
  (MinesweeperAI.add_knowledge insertion_order
     (MinesweeperAI.init 1 4) (0, 1) 1).1.

(** A game on a board of two rows and two columns after the observation of
    [(0, 0)] with one mine around it. *)
Definition square_before : AI :=
  (MinesweeperAI.add_knowledge insertion_order
     (MinesweeperAI.init 2 2) (0, 0) 1).1.

(** A game on a board of one row and two columns after the observation of
    [(0, 0)] with no mine around it: [(0, 1)] is known to be safe and has
    not been chosen. *)
Definition row_before : AI :=
  (MinesweeperAI.add_knowledge insertion_order
     (MinesweeperAI.init 1 2) (0, 0) 0).1.

(** A game of one row and three columns with its mine at [(0, 2)], and the
    engine after it has been told that no mine is around [(0, 0)]. *)
Definition row_game : Minesweeper.t :=
  {| Minesweeper.height := 1; Minesweeper.width := 3;
     Minesweeper.mines := {[(0, 2)]};
     Minesweeper.board := [[false; false; true]];
     Minesweeper.mines_found := ∅ |}.

Definition row_game_play : AI :=
  (MinesweeperAI.add_knowledge insertion_order
     (MinesweeperAI.init 1 3) (0, 0) 0).1.

(** Iteration over a set of cells in the order of [elements]. *)
Definition elements_order : cell_order :=
  {| order_cells := elements;
     order_cells_perm := λ X, reflexivity (elements X) |}.

(** ** Evaluation *)

(** [x ∉ X] and other decidable facts about closed terms, by evaluation. *)
Ltac by_evaluation := apply (bool_decide_unpack _); vm_compute; exact I.

(** * Properties *)

(** ** Sentences *)

Lemma sentence_eta (s : Sentence) :
  Sentence.Make (Sentence.cells s) (Sentence.count s) = s.
Proof. by destruct s. Qed.

Lemma sentence_eq (s1 s2 : Sentence) :
  Sentence.cells s1 = Sentence.cells s2 →
  Sentence.count s1 = Sentence.count s2 → s1 = s2.
Proof. destruct s1, s2; simpl; congruence. Qed.

Lemma sentence_mark_safe_cells s c :
  Sentence.cells (Sentence.mark_safe s c) = Sentence.cells s ∖ {[c]}.
Proof.
  unfold Sentence.mark_safe. destruct (decide _); simpl; [done|]. set_solver.
Qed.

Lemma sentence_mark_safe_count s c :
  Sentence.count (Sentence.mark_safe s c) = Sentence.count s.
Proof. unfold Sentence.mark_safe. by destruct (decide _). Qed.

Lemma sentence_mark_mine_cells s c :
  Sentence.cells (Sentence.mark_mine s c) = Sentence.cells s ∖ {[c]}.
Proof.
  unfold Sentence.mark_mine. destruct (decide _); simpl; [done|]. set_solver.
Qed.

Lemma sentence_mark_mine_count s c :
  Sentence.count (Sentence.mark_mine s c) =
  if decide (c ∈ Sentence.cells s) then Sentence.count s - 1
  else Sentence.count s.
Proof. unfold Sentence.mark_mine. by destruct (decide _). Qed.

Lemma sentence_mark_safe_absent s c :
  c ∉ Sentence.cells s → Sentence.mark_safe s c = s.
Proof. intros. unfold Sentence.mark_safe. by destruct (decide _). Qed.

Lemma sentence_mark_mine_absent s c :
  c ∉ Sentence.cells s → Sentence.mark_mine s c = s.
Proof. intros. unfold Sentence.mark_mine. by destruct (decide _). Qed.

(** A second mark of the same cell finds it gone. *)
Lemma sentence_mark_safe_twice s c :
  Sentence.mark_safe (Sentence.mark_safe s c) c = Sentence.mark_safe s c.
Proof.
  apply sentence_mark_safe_absent. rewrite sentence_mark_safe_cells. set_solver.
Qed.

Lemma sentence_mark_mine_twice s c :
  Sentence.mark_mine (Sentence.mark_mine s c) c = Sentence.mark_mine s c.
Proof.
  apply sentence_mark_mine_absent. rewrite sentence_mark_mine_cells. set_solver.
Qed.

(** The loops of Steps 3.3 and 3.4 in closed form.  The body of either loop
    commutes with itself, so the order in which the set is visited does not
    show in the result. *)
Lemma prune_safes (s : Sentence) (X : gset cell) :
  set_fold (λ safe_cell s, Sentence.mark_safe s safe_cell) s X =
  Sentence.Make (Sentence.cells s ∖ X) (Sentence.count s).
Proof.
  apply (set_fold_ind_L
    (λ r X, r = Sentence.Make (Sentence.cells s ∖ X) (Sentence.count s))).
  - rewrite difference_empty_L. by rewrite sentence_eta.
  - intros x Y r Hx ->. apply sentence_eq.
    + rewrite sentence_mark_safe_cells. simpl. set_solver.
    + by rewrite sentence_mark_safe_count.
Qed.

Lemma size_inter_insert (A X : gset cell) x :
  x ∉ X → x ∈ A → size (A ∩ ({[x]} ∪ X)) = S (size (A ∩ X)).
Proof.
  intros Hx HA.
  replace (A ∩ ({[x]} ∪ X)) with ({[x]} ∪ A ∩ X) by set_solver.
  rewrite size_union; [|set_solver]. by rewrite size_singleton.
Qed.

Lemma prune_mines (s : Sentence) (X : gset cell) :
  set_fold (λ mine s, Sentence.mark_mine s mine) s X =
  Sentence.Make (Sentence.cells s ∖ X)
    (Sentence.count s - Z.of_nat (size (Sentence.cells s ∩ X))).
Proof.
  apply (set_fold_ind_L
    (λ r X, r = Sentence.Make (Sentence.cells s ∖ X)
                  (Sentence.count s - Z.of_nat (size (Sentence.cells s ∩ X))))).
  - rewrite difference_empty_L, intersection_empty_r_L, size_empty.
    rewrite Z.sub_0_r. by rewrite sentence_eta.
  - intros x Y r Hx ->. apply sentence_eq.
    + rewrite sentence_mark_mine_cells. simpl. set_solver.
    + rewrite sentence_mark_mine_count. simpl.
      destruct (decide _) as [Hin|Hin].
      * rewrite size_inter_insert by set_solver. lia.
      * replace (Sentence.cells s ∩ ({[x]} ∪ Y)) with (Sentence.cells s ∩ Y)
          by set_solver.
        done.
Qed.

(** ** Sets of sentences *)

Section list_set_facts.
Context {A : Type} `{EqDecision A}.
Implicit Types (x y : A) (s l xs : list A).

Lemma elem_of_set_add y x s : y ∈ set_add x s ↔ y = x ∨ y ∈ s.
Proof.
  unfold set_add. destruct (decide (x ∈ s)).
  - split; [by right | by intros [->|?]].
  - rewrite elem_of_app, list_elem_of_singleton. tauto.
Qed.

Lemma NoDup_set_add x s : NoDup s → NoDup (set_add x s).
Proof.
  intros Hs. unfold set_add. destruct (decide (x ∈ s)); [done|].
  apply NoDup_app. split_and!; [done| |apply NoDup_singleton].
  intros y Hy ->%list_elem_of_singleton. done.
Qed.

Lemma list_remove_first_Some x l :
  x ∈ l → ∃ l', list_remove_first x l = Some l' ∧ l ≡ₚ x :: l'.
Proof.
  induction l as [|y l IH]; [by intros ?%elem_of_nil|].
  intros Hx. simpl. destruct (decide (x = y)) as [->|Hne]; [by eexists|].
  apply elem_of_cons in Hx as [?|Hx]; [done|].
  destruct (IH Hx) as (l' & -> & Hl'). eexists. split; [done|].
  rewrite Hl'. apply Permutation_swap.
Qed.

Lemma list_remove_first_None x l : x ∉ l → list_remove_first x l = None.
Proof.
  induction l as [|y l IH]; [done|]. intros Hx. simpl.
  apply not_elem_of_cons in Hx as [? ?]. destruct (decide (x = y)); [done|].
  by rewrite IH.
Qed.

(** Removing pairwise different elements of a list, in any order, never
    fails, and takes exactly these elements out. *)
Lemma remove_each_ok xs l :
  NoDup xs → (∀ x, x ∈ xs → x ∈ l) →
  ∃ l', remove_each xs l = (l', None) ∧ l ≡ₚ xs ++ l'.
Proof.
  revert l. induction xs as [|x xs IH]; intros l Hnd Hin; [by eexists|].
  apply NoDup_cons in Hnd as [Hx Hnd].
  destruct (list_remove_first_Some x l) as (l1 & Hl1 & Hp);
    [apply Hin; left|].
  simpl. rewrite Hl1.
  destruct (IH l1 Hnd) as (l' & -> & Hp').
  - intros y Hy. assert (y ∈ x :: l1) as Hy'.
    { rewrite <- Hp. apply Hin. by right. }
    apply elem_of_cons in Hy' as [->|?]; done.
  - eexists. split; [done|]. rewrite Hp, Hp'. done.
Qed.
End list_set_facts.

(** The order of iteration shows neither in the elements nor in the
    absence of duplicates. *)
Lemma elem_of_order_sentences o (s : Sentence) l :
  s ∈ order_sentences o l ↔ s ∈ l.
Proof. by rewrite order_sentences_perm. Qed.

Lemma elem_of_order_pairs o (p : nat * nat) l :
  p ∈ order_pairs o l ↔ p ∈ l.
Proof. by rewrite order_pairs_perm. Qed.

Lemma NoDup_order_sentences o l : NoDup l → NoDup (order_sentences o l).
Proof. by rewrite order_sentences_perm. Qed.

(** A set of at most one element is iterated in one way only. *)
Lemma order_sentences_small o l :
  (length l ≤ 1)%nat → order_sentences o l = l.
Proof.
  intros Hl. pose proof (order_sentences_perm o l) as Hp.
  destruct l as [|x [|y l]]; simpl in Hl; [| |lia].
  - by apply Permutation_nil_r.
  - by apply Permutation_singleton_r.
Qed.

Lemma order_pairs_small o l :
  (length l ≤ 1)%nat → order_pairs o l = l.
Proof.
  intros Hl. pose proof (order_pairs_perm o l) as Hp.
  destruct l as [|x [|y l]]; simpl in Hl; [| |lia].
  - by apply Permutation_nil_r.
  - by apply Permutation_singleton_r.
Qed.

(** ** Step 4: what the scan of the knowledge infers *)

Lemma truthy_known_safes s :
  Sentence.truthy (Sentence.known_safes s) = true ↔ gives_safes s.
Proof.
  unfold Sentence.known_safes, gives_safes.
  destruct (decide _); simpl; [rewrite bool_decide_eq_true|]; naive_solver.
Qed.

Lemma truthy_known_mines s :
  Sentence.truthy (Sentence.known_mines s) = true ↔ gives_mines s.
Proof.
  unfold Sentence.known_mines, gives_mines.
  destruct (decide _); simpl; [rewrite bool_decide_eq_true|]; naive_solver.
Qed.

Lemma scan_sentence_safes acc s x :
  x ∈ MinesweeperAI.inferred_safes (MinesweeperAI.scan_sentence acc s) ↔
  x ∈ MinesweeperAI.inferred_safes acc ∨
  (Sentence.count s = 0 ∧ x ∈ Sentence.cells s).
Proof.
  unfold MinesweeperAI.scan_sentence.
  destruct (Sentence.truthy (Sentence.known_safes s)) eqn:Hs;
    destruct (Sentence.truthy (Sentence.known_mines s)) eqn:Hm; simpl;
    rewrite ?elem_of_union; unfold Sentence.known_safes in *;
    destruct (decide (Sentence.count s = 0)); simpl in *;
    try rewrite bool_decide_eq_false in Hs; try done; set_solver.
Qed.

Lemma scan_sentence_mines acc s x :
  x ∈ MinesweeperAI.inferred_mines (MinesweeperAI.scan_sentence acc s) ↔
  x ∈ MinesweeperAI.inferred_mines acc ∨
  (Sentence.count s = Z.of_nat (size (Sentence.cells s)) ∧ x ∈ Sentence.cells s).
Proof.
  unfold MinesweeperAI.scan_sentence.
  destruct (Sentence.truthy (Sentence.known_safes s)) eqn:Hs;
    destruct (Sentence.truthy (Sentence.known_mines s)) eqn:Hm; simpl;
    rewrite ?elem_of_union; unfold Sentence.known_mines in *;
    destruct (decide (Sentence.count s = _)); simpl in *;
    try rewrite bool_decide_eq_false in Hm; try done; set_solver.
Qed.

Lemma scan_sentence_remove acc s r :
  r ∈ MinesweeperAI.sentences_to_remove (MinesweeperAI.scan_sentence acc s) ↔
  r ∈ MinesweeperAI.sentences_to_remove acc ∨
  (r = s ∧ (gives_safes s ∨ gives_mines s)).
Proof.
  unfold MinesweeperAI.scan_sentence.
  destruct (Sentence.truthy (Sentence.known_safes s)) eqn:Hs;
    destruct (Sentence.truthy (Sentence.known_mines s)) eqn:Hm; simpl;
    rewrite ?elem_of_set_add;
    [apply truthy_known_safes in Hs; apply truthy_known_mines in Hm
    |apply truthy_known_safes in Hs; apply not_true_iff_false in Hm;
     rewrite truthy_known_mines in Hm
    |apply not_true_iff_false in Hs; rewrite truthy_known_safes in Hs;
     apply truthy_known_mines in Hm
    |apply not_true_iff_false in Hs; rewrite truthy_known_safes in Hs;
     apply not_true_iff_false in Hm; rewrite truthy_known_mines in Hm];
    tauto.
Qed.

Lemma scan_sentence_NoDup acc s :
  NoDup (MinesweeperAI.sentences_to_remove acc) →
  NoDup (MinesweeperAI.sentences_to_remove (MinesweeperAI.scan_sentence acc s)).
Proof.
  intros Hnd. unfold MinesweeperAI.scan_sentence.
  destruct (Sentence.truthy (Sentence.known_safes s));
    destruct (Sentence.truthy (Sentence.known_mines s)); simpl;
    auto using NoDup_set_add.
Qed.

Lemma scan_from_safes KB acc x :
  x ∈ MinesweeperAI.inferred_safes (foldl MinesweeperAI.scan_sentence acc KB) ↔
  x ∈ MinesweeperAI.inferred_safes acc ∨
  ∃ s, s ∈ KB ∧ Sentence.count s = 0 ∧ x ∈ Sentence.cells s.
Proof.
  revert acc. induction KB as [|s KB IH]; intros acc; simpl.
  - set_solver.
  - rewrite IH, scan_sentence_safes. set_solver.
Qed.

Lemma scan_from_mines KB acc x :
  x ∈ MinesweeperAI.inferred_mines (foldl MinesweeperAI.scan_sentence acc KB) ↔
  x ∈ MinesweeperAI.inferred_mines acc ∨
  ∃ s, s ∈ KB ∧ Sentence.count s = Z.of_nat (size (Sentence.cells s)) ∧
       x ∈ Sentence.cells s.
Proof.
  revert acc. induction KB as [|s KB IH]; intros acc; simpl.
  - set_solver.
  - rewrite IH, scan_sentence_mines. set_solver.
Qed.

Lemma scan_from_remove KB acc r :
  r ∈ MinesweeperAI.sentences_to_remove
        (foldl MinesweeperAI.scan_sentence acc KB) ↔
  r ∈ MinesweeperAI.sentences_to_remove acc ∨
  (r ∈ KB ∧ (gives_safes r ∨ gives_mines r)).
Proof.
  revert acc. induction KB as [|s KB IH]; intros acc; simpl.
  - set_solver.
  - rewrite IH, scan_sentence_remove. set_solver.
Qed.

Lemma scan_from_NoDup KB acc :
  NoDup (MinesweeperAI.sentences_to_remove acc) →
  NoDup (MinesweeperAI.sentences_to_remove
           (foldl MinesweeperAI.scan_sentence acc KB)).
Proof.
  revert acc. induction KB as [|s KB IH]; intros acc Hnd; simpl; [done|].
  by apply IH, scan_sentence_NoDup.
Qed.

(** The cells inferred safe are the cells of the sentences of count zero,
    the cells inferred mines those of the sentences whose count is the
    number of their cells, and the sentences staged for removal are the
    sentences that gave a fact, each once. *)
Lemma elem_of_scan_safes KB x :
  x ∈ MinesweeperAI.inferred_safes (MinesweeperAI.scan KB) ↔
  ∃ s, s ∈ KB ∧ Sentence.count s = 0 ∧ x ∈ Sentence.cells s.
Proof. unfold MinesweeperAI.scan. rewrite scan_from_safes. set_solver. Qed.

Lemma elem_of_scan_mines KB x :
  x ∈ MinesweeperAI.inferred_mines (MinesweeperAI.scan KB) ↔
  ∃ s, s ∈ KB ∧ Sentence.count s = Z.of_nat (size (Sentence.cells s)) ∧
       x ∈ Sentence.cells s.
Proof. unfold MinesweeperAI.scan. rewrite scan_from_mines. set_solver. Qed.

Lemma elem_of_scan_remove KB r :
  r ∈ MinesweeperAI.sentences_to_remove (MinesweeperAI.scan KB) ↔
  r ∈ KB ∧ (gives_safes r ∨ gives_mines r).
Proof.
  unfold MinesweeperAI.scan. rewrite scan_from_remove. simpl.
  rewrite elem_of_nil. tauto.
Qed.

Lemma scan_remove_NoDup KB :
  NoDup (MinesweeperAI.sentences_to_remove (MinesweeperAI.scan KB)).
Proof. apply scan_from_NoDup. simpl. apply NoDup_nil_2. Qed.

(** ** The three parts of add_knowledge, field by field *)

Lemma record_move_knowledge ai c n :
  MinesweeperAI.knowledge (MinesweeperAI.record_move ai c n) =
  ((λ s, Sentence.mark_safe s c) <$> MinesweeperAI.knowledge ai)
    ++ [fresh_sentence ai c n].
Proof.
  unfold MinesweeperAI.record_move, fresh_sentence. simpl.
  by rewrite prune_safes, prune_mines.
Qed.

(** Step 4 never raises: every sentence staged for removal is in the list
    when its turn comes. *)
Lemma infer_cells_ok o ai :
  ∃ KB',
    MinesweeperAI.infer_cells o ai =
      ({| MinesweeperAI.height := MinesweeperAI.height ai;
          MinesweeperAI.width := MinesweeperAI.width ai;
          MinesweeperAI.moves_made := MinesweeperAI.moves_made ai;
          MinesweeperAI.mines :=
            MinesweeperAI.mines ai ∪
            MinesweeperAI.inferred_mines (MinesweeperAI.scan (MinesweeperAI.knowledge ai));
          MinesweeperAI.safes :=
            MinesweeperAI.safes ai ∪
            MinesweeperAI.inferred_safes (MinesweeperAI.scan (MinesweeperAI.knowledge ai));
          MinesweeperAI.knowledge := KB' |}, None) ∧
    MinesweeperAI.knowledge ai ≡ₚ
      order_sentences o
        (MinesweeperAI.sentences_to_remove
           (MinesweeperAI.scan (MinesweeperAI.knowledge ai))) ++ KB'.
Proof.
  unfold MinesweeperAI.infer_cells.
  destruct (remove_each_ok
    (order_sentences o (MinesweeperAI.sentences_to_remove
       (MinesweeperAI.scan (MinesweeperAI.knowledge ai))))
    (MinesweeperAI.knowledge ai)) as (KB' & -> & Hp).
  - apply NoDup_order_sentences, scan_remove_NoDup.
  - intros s Hs%elem_of_order_sentences%elem_of_scan_remove. tauto.
  - by exists KB'.
Qed.

Lemma infer_cells_no_exception o ai : (MinesweeperAI.infer_cells o ai).2 = None.
Proof. by destruct (infer_cells_ok o ai) as (KB' & -> & _). Qed.

Lemma infer_cells_safes o ai :
  MinesweeperAI.safes (MinesweeperAI.infer_cells o ai).1 =
  MinesweeperAI.safes ai ∪
  MinesweeperAI.inferred_safes (MinesweeperAI.scan (MinesweeperAI.knowledge ai)).
Proof. by destruct (infer_cells_ok o ai) as (KB' & -> & _). Qed.

Lemma infer_cells_mines o ai :
  MinesweeperAI.mines (MinesweeperAI.infer_cells o ai).1 =
  MinesweeperAI.mines ai ∪
  MinesweeperAI.inferred_mines (MinesweeperAI.scan (MinesweeperAI.knowledge ai)).
Proof. by destruct (infer_cells_ok o ai) as (KB' & -> & _). Qed.

Lemma infer_cells_moves_made o ai :
  MinesweeperAI.moves_made (MinesweeperAI.infer_cells o ai).1 =
  MinesweeperAI.moves_made ai.
Proof. by destruct (infer_cells_ok o ai) as (KB' & -> & _). Qed.

(** The sentences that stay are sentences of the list. *)
Lemma infer_cells_knowledge o ai s :
  s ∈ MinesweeperAI.knowledge (MinesweeperAI.infer_cells o ai).1 →
  s ∈ MinesweeperAI.knowledge ai.
Proof.
  destruct (infer_cells_ok o ai) as (KB' & -> & Hp). simpl. intros Hs.
  rewrite Hp. apply elem_of_app. by right.
Qed.

(** A sentence that gives no fact stays. *)
Lemma infer_cells_keeps o ai s :
  s ∈ MinesweeperAI.knowledge ai → ¬ gives_safes s → ¬ gives_mines s →
  s ∈ MinesweeperAI.knowledge (MinesweeperAI.infer_cells o ai).1.
Proof.
  destruct (infer_cells_ok o ai) as (KB' & -> & Hp). simpl. intros Hs ??.
  rewrite Hp in Hs. apply elem_of_app in Hs as [Hs|Hs]; [|done].
  apply elem_of_order_sentences, elem_of_scan_remove in Hs. tauto.
Qed.

(** Step 5 leaves the sets of cells alone. *)
Lemma infer_sentences_safes o ai :
  MinesweeperAI.safes (MinesweeperAI.infer_sentences o ai).1 = MinesweeperAI.safes ai.
Proof. unfold MinesweeperAI.infer_sentences. by destruct (MinesweeperAI.derive _ _ _). Qed.

Lemma infer_sentences_mines o ai :
  MinesweeperAI.mines (MinesweeperAI.infer_sentences o ai).1 = MinesweeperAI.mines ai.
Proof. unfold MinesweeperAI.infer_sentences. by destruct (MinesweeperAI.derive _ _ _). Qed.

Lemma infer_sentences_moves_made o ai :
  MinesweeperAI.moves_made (MinesweeperAI.infer_sentences o ai).1 =
  MinesweeperAI.moves_made ai.
Proof. unfold MinesweeperAI.infer_sentences. by destruct (MinesweeperAI.derive _ _ _). Qed.

Lemma add_knowledge_steps o ai c n :
  MinesweeperAI.add_knowledge o ai c n =
  MinesweeperAI.infer_sentences o (after_step4 o ai c n).
Proof.
  unfold MinesweeperAI.add_knowledge, after_step4.
  pose proof (infer_cells_no_exception o (MinesweeperAI.record_move ai c n)) as He.
  destruct (MinesweeperAI.infer_cells o (MinesweeperAI.record_move ai c n))
    as [ai' e]. simpl in He. by subst e.
Qed.

Lemma add_knowledge_safes o ai c n :
  MinesweeperAI.safes (MinesweeperAI.add_knowledge o ai c n).1 =
  {[c]} ∪ MinesweeperAI.safes ai ∪
  MinesweeperAI.inferred_safes
    (MinesweeperAI.scan (MinesweeperAI.knowledge (MinesweeperAI.record_move ai c n))).
Proof.
  rewrite add_knowledge_steps, infer_sentences_safes. unfold after_step4.
  by rewrite infer_cells_safes.
Qed.

Lemma add_knowledge_mines o ai c n :
  MinesweeperAI.mines (MinesweeperAI.add_knowledge o ai c n).1 =
  MinesweeperAI.mines ai ∪
  MinesweeperAI.inferred_mines
    (MinesweeperAI.scan (MinesweeperAI.knowledge (MinesweeperAI.record_move ai c n))).
Proof.
  rewrite add_knowledge_steps, infer_sentences_mines. unfold after_step4.
  by rewrite infer_cells_mines.
Qed.

Lemma add_knowledge_moves_made o ai c n :
  MinesweeperAI.moves_made (MinesweeperAI.add_knowledge o ai c n).1 =
  {[c]} ∪ MinesweeperAI.moves_made ai.
Proof.
  rewrite add_knowledge_steps, infer_sentences_moves_made. unfold after_step4.
  by rewrite infer_cells_moves_made.
Qed.

(** ** Step 5: the pairs the subset step selects, and what it derives *)

Lemma elem_of_subset_pairs KB i j :
  (i, j) ∈ MinesweeperAI.subset_pairs KB ↔ selects KB i j.
Proof.
  unfold MinesweeperAI.subset_pairs, selects. rewrite list_elem_of_bind. split.
  - intros (i0 & (j0 & Hp & Hj0)%list_elem_of_bind & Hi0).
    apply elem_of_seq in Hi0, Hj0.
    destruct (KB !! i0) as [si|] eqn:Hsi, (KB !! j0) as [sj|] eqn:Hsj;
      try by apply elem_of_nil in Hp.
    destruct (decide (Sentence.cells si ⊆ Sentence.cells sj)) as [Hsub|Hsub].
    { apply list_elem_of_singleton in Hp. simplify_eq.
      exists si, sj. split_and!; [done..|]. left. lia. }
    destruct (decide (Sentence.cells sj ⊆ Sentence.cells si)) as [Hsup|Hsup];
      [|by apply elem_of_nil in Hp].
    apply list_elem_of_singleton in Hp. simplify_eq.
    exists sj, si. split_and!; [done..|]. right. split; [lia|done].
  - intros (a & b & Ha & Hb & Hsub & Hord).
    pose proof (lookup_lt_Some _ _ _ Ha) as Hi.
    pose proof (lookup_lt_Some _ _ _ Hb) as Hj.
    destruct Hord as [Hlt|[Hlt Hstrict]].
    + exists i. split; [|apply elem_of_seq; lia].
      apply list_elem_of_bind. exists j. split; [|apply elem_of_seq; lia].
      rewrite Ha, Hb. rewrite decide_True by done. by apply list_elem_of_singleton.
    + exists j. split; [|apply elem_of_seq; lia].
      apply list_elem_of_bind. exists i. split; [|apply elem_of_seq; lia].
      rewrite Ha, Hb. rewrite decide_False by done. rewrite decide_True by done.
      by apply list_elem_of_singleton.
Qed.

Lemma subset_pairs_in_range o KB :
  in_range KB (order_pairs o (MinesweeperAI.subset_pairs KB)).
Proof.
  intros i j (a & b & Ha & Hb & _)%elem_of_order_pairs%elem_of_subset_pairs.
  by rewrite Ha, Hb.
Qed.

(** The loop of Step 5.3, when it ends without raising: the staged
    sentences are those staged before and the sentences derived from the
    pairs, each once, and no derived count is negative. *)
Lemma derive_inr KB ps acc l :
  MinesweeperAI.derive KB ps acc = inr l →
  (∀ s, s ∈ l ↔
     s ∈ acc ∨ ∃ i j a b, (i, j) ∈ ps ∧ KB !! i = Some a ∧ KB !! j = Some b ∧
                          s = derived a b) ∧
  (∀ i j a b, (i, j) ∈ ps → KB !! i = Some a → KB !! j = Some b →
     0 ≤ Sentence.count b - Sentence.count a) ∧
  (NoDup acc → NoDup l).
Proof.
  revert acc. induction ps as [|[i j] ps IH]; intros acc; simpl.
  - intros [= <-]. split_and!; [|by intros ???? ?%elem_of_nil|done].
    intros s. split; [by left|]. intros [?|(?&?&?&?&?%elem_of_nil&_)]; done.
  - destruct (KB !! i) as [si|] eqn:Hsi; [|done].
    destruct (KB !! j) as [sj|] eqn:Hsj; [|done].
    destruct (decide (Sentence.count sj - Sentence.count si < 0)); [done|].
    intros (Hl & Hnn & Hnd)%IH. split_and!.
    + intros s. rewrite Hl, elem_of_set_add. split.
      * intros [[->|?]|(i'&j'&a&b&?&?&?&?)]; [right|by left|right].
        -- exists i, j, si, sj. split_and!; [left|..]; done.
        -- exists i', j', a, b. split_and!; [right|..]; done.
      * intros [?|(i'&j'&a&b&[?|?]%elem_of_cons&?&?&?)]; [tauto| |].
        -- simplify_eq. left. by left.
        -- right. by exists i', j', a, b.
    + intros i' j' a b [?|?]%elem_of_cons ??; [simplify_eq; lia|by eapply Hnn].
    + intros ?. by apply Hnd, NoDup_set_add.
Qed.

(** The loop raises exactly when it meets a pair with a negative derived
    count, whatever the order in which it visits the pairs. *)
Lemma derive_inl KB ps acc e :
  in_range KB ps →
  MinesweeperAI.derive KB ps acc = inl e →
  e = Exception ∧
  ∃ i j a b, (i, j) ∈ ps ∧ KB !! i = Some a ∧ KB !! j = Some b ∧
             Sentence.count b - Sentence.count a < 0.
Proof.
  revert acc. induction ps as [|[i j] ps IH]; intros acc Hr; simpl; [done|].
  destruct (Hr i j) as [[si Hsi] [sj Hsj]]; [left|]. rewrite Hsi, Hsj.
  destruct (decide (Sentence.count sj - Sentence.count si < 0)).
  - intros [= <-]. split; [done|]. exists i, j, si, sj. split_and!; [left|..]; done.
  - intros (-> & i' & j' & a & b & ? & ?)%IH.
    + split; [done|]. exists i', j', a, b. split; [by right|done].
    + intros i' j' ?. apply Hr. by right.
Qed.

Lemma derive_raises KB ps acc i j a b :
  in_range KB ps →
  (i, j) ∈ ps → KB !! i = Some a → KB !! j = Some b →
  Sentence.count b - Sentence.count a < 0 →
  MinesweeperAI.derive KB ps acc = inl Exception.
Proof.
  intros Hr Hin Ha Hb Hneg.
  destruct (MinesweeperAI.derive KB ps acc) as [e|l] eqn:Hd.
  - by apply derive_inl in Hd as [-> _].
  - apply derive_inr in Hd as (_ & Hnn & _).
    specialize (Hnn i j a b Hin Ha Hb). lia.
Qed.

Lemma pair_of_strict KB i j a b :
  KB !! i = Some a → KB !! j = Some b →
  Sentence.cells a ⊂ Sentence.cells b → pair_of KB a b.
Proof.
  intros Ha Hb [Hsub Hstrict]. exists i, j. split_and!; [|done..].
  exists a, b. split_and!; [done..|].
  destruct (decide (i < j)%nat); [by left|right]. split; [|done].
  assert (i ≠ j) by (intros ->; simplify_eq; set_solver). lia.
Qed.

Lemma pair_of_earlier KB i j a b :
  KB !! i = Some a → KB !! j = Some b → (i < j)%nat →
  Sentence.cells a ⊆ Sentence.cells b → pair_of KB a b.
Proof.
  intros Ha Hb Hlt Hsub. exists i, j. split_and!; [|done..].
  exists a, b. split_and!; [done..|]. by left.
Qed.

Lemma pair_of_subseteq KB a b :
  pair_of KB a b → Sentence.cells a ⊆ Sentence.cells b.
Proof. intros (i & j & (a' & b' & ? & ? & ? & _) & ? & ?). by simplify_eq. Qed.

Lemma pair_of_elem KB a b : pair_of KB a b → a ∈ KB ∧ b ∈ KB.
Proof. intros (i & j & _ & ? & ?). split; by eapply list_elem_of_lookup_2. Qed.

Lemma pair_of_iff o KB a b :
  pair_of KB a b ↔
  ∃ i j, (i, j) ∈ order_pairs o (MinesweeperAI.subset_pairs KB) ∧
         KB !! i = Some a ∧ KB !! j = Some b.
Proof.
  unfold pair_of. by setoid_rewrite elem_of_order_pairs;
    setoid_rewrite elem_of_subset_pairs.
Qed.

(** Step 5 when it returns: the sentences derived from the selected pairs
    are appended, each once, to a list that is otherwise unchanged, and none
    of them has a negative count. *)
Lemma infer_sentences_returns o ai ai' :
  MinesweeperAI.infer_sentences o ai = (ai', None) →
  ∃ added,
    MinesweeperAI.knowledge ai' = MinesweeperAI.knowledge ai ++ added ∧
    NoDup added ∧
    (∀ s, s ∈ added ↔
       ∃ a b, pair_of (MinesweeperAI.knowledge ai) a b ∧ s = derived a b) ∧
    (∀ a b, pair_of (MinesweeperAI.knowledge ai) a b →
       0 ≤ Sentence.count b - Sentence.count a).
Proof.
  unfold MinesweeperAI.infer_sentences.
  destruct (MinesweeperAI.derive _ _ _) as [e|l] eqn:Hd; [done|].
  intros [= <-]. simpl. apply derive_inr in Hd as (Hl & Hnn & Hnd).
  exists (order_sentences o l). split_and!; [done|..].
  - apply NoDup_order_sentences, Hnd, NoDup_nil_2.
  - intros s. rewrite elem_of_order_sentences, Hl, elem_of_nil.
    setoid_rewrite (pair_of_iff o). naive_solver.
  - intros a b (i & j & ? & ? & ?)%(pair_of_iff o). by eapply Hnn.
Qed.

(** Step 5 when it raises: the exception is the one of the source, the
    state is left as it was, and a selected pair has a negative derived
    count. *)
Lemma infer_sentences_raised o ai ai' e :
  MinesweeperAI.infer_sentences o ai = (ai', Some e) →
  ai' = ai ∧ e = Exception ∧
  ∃ a b, pair_of (MinesweeperAI.knowledge ai) a b ∧
         Sentence.count b - Sentence.count a < 0.
Proof.
  unfold MinesweeperAI.infer_sentences.
  destruct (MinesweeperAI.derive _ _ _) as [e'|l] eqn:Hd; [|done].
  intros [= <- <-]. apply derive_inl in Hd as (-> & i & j & a & b & ?);
    [|apply subset_pairs_in_range].
  split_and!; [done..|]. exists a, b. rewrite (pair_of_iff o). naive_solver.
Qed.

Lemma infer_sentences_raises o ai a b :
  pair_of (MinesweeperAI.knowledge ai) a b →
  Sentence.count b - Sentence.count a < 0 →
  MinesweeperAI.infer_sentences o ai = (ai, Some Exception).
Proof.
  intros (i & j & Hin & Ha & Hb)%(pair_of_iff o) Hneg.
  unfold MinesweeperAI.infer_sentences.
  by erewrite derive_raises by eauto using subset_pairs_in_range.
Qed.

(** The only exception [add_knowledge] raises is its own. *)
Lemma add_knowledge_exception o ai c n :
  (MinesweeperAI.add_knowledge o ai c n).2 = None ∨
  (MinesweeperAI.add_knowledge o ai c n).2 = Some Exception.
Proof.
  rewrite add_knowledge_steps.
  destruct (MinesweeperAI.infer_sentences o (after_step4 o ai c n))
    as [ai' [e|]] eqn:Hs; [|by left].
  apply infer_sentences_raised in Hs as (_ & -> & _). by right.
Qed.

(** Step 5 only appends. *)
Lemma infer_sentences_keeps o ai s :
  s ∈ MinesweeperAI.knowledge ai →
  s ∈ MinesweeperAI.knowledge (MinesweeperAI.infer_sentences o ai).1.
Proof.
  intros Hs. destruct (MinesweeperAI.infer_sentences o ai) as [ai' [e|]] eqn:Hi.
  - by apply infer_sentences_raised in Hi as (-> & _).
  - apply infer_sentences_returns in Hi as (added & Hk & _). simpl.
    rewrite Hk. apply elem_of_app. by left.
Qed.

(** ** Soundness with respect to a board *)

Lemma size_split (X Y M : gset cell) :
  X ⊆ Y → size (Y ∩ M) = (size (X ∩ M) + size ((Y ∖ X) ∩ M))%nat.
Proof.
  intros Hsub. rewrite <- size_union by set_solver. f_equal.
  apply set_eq. intros x. destruct (decide (x ∈ X)); set_solver.
Qed.


Lemma holds_mark_safe M s c : c ∉ M → holds M s → holds M (Sentence.mark_safe s c).
Proof.
  unfold holds. intros Hc Hs.
  rewrite sentence_mark_safe_count, sentence_mark_safe_cells, Hs.
  do 2 f_equal. set_solver.
Qed.

Lemma holds_mark_mine M s c : c ∈ M → holds M s → holds M (Sentence.mark_mine s c).
Proof.
  unfold holds. intros Hc Hs.
  rewrite sentence_mark_mine_count, sentence_mark_mine_cells, Hs.
  destruct (decide (c ∈ Sentence.cells s)) as [Hin|Hin].
  - rewrite (size_split {[c]} (Sentence.cells s) M) by set_solver.
    replace ({[c]} ∩ M) with ({[c]} : gset cell) by set_solver.
    rewrite size_singleton. lia.
  - do 2 f_equal. set_solver.
Qed.

(** A sentence of count zero that holds has no mine, and a sentence whose
    count is the number of its cells has only mines. *)
Lemma holds_zero M s x :
  holds M s → Sentence.count s = 0 → x ∈ Sentence.cells s → x ∉ M.
Proof.
  unfold holds. intros Hs H0 Hx HM. rewrite H0 in Hs.
  assert (size (Sentence.cells s ∩ M) = 0%nat) as Hsz%size_empty_inv by lia.
  set_solver.
Qed.

Lemma holds_full M s x :
  holds M s → Sentence.count s = Z.of_nat (size (Sentence.cells s)) →
  x ∈ Sentence.cells s → x ∈ M.
Proof.
  unfold holds. intros Hs Hfull Hx.
  assert (Sentence.cells s ∩ M = Sentence.cells s) as Heq.
  { apply set_subseteq_size_eq; [set_solver|]. lia. }
  set_solver.
Qed.

(** The sentence derived from two sentences that hold, the cells of the
    first among those of the second, holds, and its count is not negative. *)
Lemma holds_derived M a b :
  Sentence.cells a ⊆ Sentence.cells b → holds M a → holds M b →
  holds M (derived a b) ∧ 0 ≤ Sentence.count b - Sentence.count a.
Proof.
  unfold holds, derived. simpl. intros Hsub -> ->.
  rewrite (size_split (Sentence.cells a) (Sentence.cells b) M) by done.
  lia.
Qed.

(** The sentence of a truthful observation holds. *)
Lemma holds_fresh_sentence M ai c n :
  MinesweeperAI.mines ai ⊆ M → MinesweeperAI.safes ai ## M →
  truthful M ai c n → holds M (fresh_sentence ai c n).
Proof.
  intros Hm Hs [Hc ->]. unfold holds, fresh_sentence. simpl.
  set (N := MinesweeperAI.get_neighbors ai c).
  set (U := N ∖ ({[c]} ∪ MinesweeperAI.safes ai)).
  replace (N ∩ M) with (U ∩ M) by set_solver.
  rewrite (size_split (U ∩ MinesweeperAI.mines ai) U M) by set_solver.
  replace (U ∩ MinesweeperAI.mines ai ∩ M) with (U ∩ MinesweeperAI.mines ai)
    by set_solver.
  replace (U ∖ (U ∩ MinesweeperAI.mines ai)) with (U ∖ MinesweeperAI.mines ai)
    by set_solver.
  lia.
Qed.

Lemma record_move_consistent M ai c n :
  consistent M ai → truthful M ai c n →
  consistent M (MinesweeperAI.record_move ai c n).
Proof.
  intros [Hm Hs Hk] Ht. split.
  - done.
  - destruct Ht as [Hc _]. simpl. set_solver.
  - intros s. rewrite record_move_knowledge, elem_of_app, list_elem_of_fmap.
    intros [(s' & -> & Hs')|Hfresh%list_elem_of_singleton].
    + apply holds_mark_safe; [by destruct Ht|by apply Hk].
    + subst s. by apply holds_fresh_sentence.
Qed.

Lemma infer_cells_consistent M o ai :
  consistent M ai → consistent M (MinesweeperAI.infer_cells o ai).1.
Proof.
  intros [Hm Hs Hk]. split.
  - rewrite infer_cells_mines. apply union_subseteq. split; [done|].
    intros x (s & Hin & Hfull & Hx)%elem_of_scan_mines.
    eapply holds_full; eauto.
  - rewrite infer_cells_safes. apply disjoint_union_l. split; [done|].
    intros x (s & Hin & H0 & Hx)%elem_of_scan_safes.
    eapply holds_zero; eauto.
  - intros s Hin%infer_cells_knowledge. by apply Hk.
Qed.

(** On a consistent state Step 5 does not raise, and what it appends
    holds. *)
Lemma infer_sentences_consistent M o ai :
  consistent M ai →
  (MinesweeperAI.infer_sentences o ai).2 = None ∧
  consistent M (MinesweeperAI.infer_sentences o ai).1.
Proof.
  intros [Hm Hs Hk].
  destruct (MinesweeperAI.infer_sentences o ai) as [ai' [e|]] eqn:Hi.
  - apply infer_sentences_raised in Hi as (_ & _ & a & b & Hp & Hneg).
    destruct (pair_of_elem _ _ _ Hp) as [Ha Hb].
    destruct (holds_derived M a b) as [_ ?];
      eauto using pair_of_subseteq. lia.
  - split; [done|]. simpl.
    pose proof (infer_sentences_safes o ai) as Hsafes.
    pose proof (infer_sentences_mines o ai) as Hmines.
    rewrite Hi in Hsafes, Hmines. simpl in *.
    apply infer_sentences_returns in Hi as (added & Hk' & _ & Hadded & _).
    split; [by rewrite Hmines|by rewrite Hsafes|].
    intros s. rewrite Hk', elem_of_app.
    intros [?|(a & b & Hp & ->)%Hadded]; [by apply Hk|].
    destruct (pair_of_elem _ _ _ Hp) as [Ha Hb].
    apply holds_derived; eauto using pair_of_subseteq.
Qed.

(** A truthful observation never makes [add_knowledge] raise, and leaves a
    state that is consistent with the board. *)
Lemma add_knowledge_consistent M o ai c n :
  consistent M ai → truthful M ai c n →
  (MinesweeperAI.add_knowledge o ai c n).2 = None ∧
  consistent M (MinesweeperAI.add_knowledge o ai c n).1.
Proof.
  intros Hc Ht. rewrite add_knowledge_steps.
  apply infer_sentences_consistent. unfold after_step4.
  by apply infer_cells_consistent, record_move_consistent.
Qed.

Lemma init_consistent M h w : consistent M (MinesweeperAI.init h w).
Proof. split; simpl; [set_solver..|]. by intros s ?%elem_of_nil. Qed.

Lemma mark_mine_consistent M ai c :
  consistent M ai → c ∈ M → consistent M (MinesweeperAI.mark_mine ai c).
Proof.
  intros [Hm Hs Hk] Hc. split; simpl; [set_solver|done|].
  intros s (s' & -> & Hs')%list_elem_of_fmap. by apply holds_mark_mine, Hk.
Qed.

Lemma mark_safe_consistent M ai c :
  consistent M ai → c ∉ M → consistent M (MinesweeperAI.mark_safe ai c).
Proof.
  intros [Hm Hs Hk] Hc. split; simpl; [done|set_solver|].
  intros s (s' & -> & Hs')%list_elem_of_fmap. by apply holds_mark_safe, Hk.
Qed.

Lemma reachable_consistent M ai : reachable M ai → consistent M ai.
Proof.
  induction 1 as [h w|o ai c n _ IH Ht|ai c _ IH Hc|ai c _ IH Hc].
  - apply init_consistent.
  - by apply add_knowledge_consistent.
  - by apply mark_mine_consistent.
  - by apply mark_safe_consistent.
Qed.

(** ** make_random_move *)

Lemma draw_in_grid ai rng k :
  0 < MinesweeperAI.height ai → 0 < MinesweeperAI.width ai →
  MinesweeperAI.draw ai rng k = inr (cell_of ai rng k) ∧
  in_grid ai (cell_of ai rng k).
Proof.
  intros Hh Hw. unfold MinesweeperAI.draw, MinesweeperAI.randrange, in_grid, cell_of.
  rewrite !decide_True by done. split; [done|]. simpl.
  split; by apply Z.mod_pos_bound.
Qed.

Lemma draw_empty_grid ai rng k :
  ¬ (0 < MinesweeperAI.height ai ∧ 0 < MinesweeperAI.width ai) →
  MinesweeperAI.draw ai rng k = inl ValueError.
Proof.
  intros Hg. unfold MinesweeperAI.draw, MinesweeperAI.randrange.
  destruct (decide (0 < MinesweeperAI.height ai)); [|done].
  destruct (decide (0 < MinesweeperAI.width ai)); [tauto|done].
Qed.

(** The loop with [r] moves available, [r] at least one, stops within [r]
    rounds, with the first candidate it drew or with [None]. *)
Lemma random_loop_first_candidate ai rng rounds :
  0 < MinesweeperAI.height ai → 0 < MinesweeperAI.width ai →
  ∀ r k, (1 ≤ r ≤ rounds)%nat →
    MinesweeperAI.random_loop ai rng k (Z.of_nat r) rounds =
    inr (first_candidate ai rng k r).
Proof.
  intros Hh Hw. induction rounds as [|rounds IH]; intros r k Hr; [lia|].
  destruct r as [|r]; [lia|]. simpl.
  destruct (draw_in_grid ai rng k Hh Hw) as [-> _].
  assert (Z.of_nat (S r) - 1 = Z.of_nat r) as -> by lia.
  assert (match decide (Z.of_nat r = 0) with
          | left _ => inr None
          | right _ => MinesweeperAI.random_loop ai rng (S k) (Z.of_nat r) rounds
          end = inr (first_candidate ai rng (S k) r)) as Hrest.
  { destruct (decide (Z.of_nat r = 0)) as [H0|H0].
    - by assert (r = 0%nat) as -> by lia.
    - apply IH. lia. }
  unfold candidate.
  by destruct (decide ((cell_of ai rng k ∉ MinesweeperAI.moves_made ai) ∧
                       (cell_of ai rng k ∉ MinesweeperAI.mines ai))).
Qed.

Lemma make_random_move_first_candidate ai rng :
  0 < MinesweeperAI.height ai → 0 < MinesweeperAI.width ai →
  MinesweeperAI.make_random_move ai rng =
  inr (first_candidate ai rng 0
         (Z.to_nat (MinesweeperAI.height ai * MinesweeperAI.width ai))).
Proof.
  intros Hh Hw. unfold MinesweeperAI.make_random_move.
  set (m := MinesweeperAI.height ai * MinesweeperAI.width ai).
  assert (0 < m) by (unfold m; lia).
  rewrite <- (Z2Nat.id m) at 1 by lia.
  apply random_loop_first_candidate; [done..|lia].
Qed.

(** The bound on the rounds is never reached: with more rounds allowed
    the loop gives the same result. *)
Lemma random_loop_rounds ai rng extra :
  MinesweeperAI.random_loop ai rng 0
    (MinesweeperAI.height ai * MinesweeperAI.width ai)
    (S (Z.to_nat (MinesweeperAI.height ai * MinesweeperAI.width ai)) + extra) =
  MinesweeperAI.make_random_move ai rng.
Proof.
  destruct (decide (0 < MinesweeperAI.height ai ∧ 0 < MinesweeperAI.width ai))
    as [[Hh Hw]|Hg].
  - rewrite make_random_move_first_candidate by done.
    set (m := MinesweeperAI.height ai * MinesweeperAI.width ai).
    assert (0 < m) by (unfold m; lia).
    rewrite <- (Z2Nat.id m) at 1 by lia.
    apply random_loop_first_candidate; [done..|lia].
  - unfold MinesweeperAI.make_random_move. simpl.
    by rewrite draw_empty_grid.
Qed.

(** On a grid without cells the first [randrange] raises. *)
Lemma make_random_move_empty_grid ai rng :
  ¬ (0 < MinesweeperAI.height ai ∧ 0 < MinesweeperAI.width ai) →
  MinesweeperAI.make_random_move ai rng = inl ValueError.
Proof.
  intros Hg. unfold MinesweeperAI.make_random_move. simpl.
  by rewrite draw_empty_grid.
Qed.

Lemma first_candidate_Some ai rng k r c :
  first_candidate ai rng k r = Some c →
  ∃ j, (k ≤ j < k + r)%nat ∧ c = cell_of ai rng j ∧ candidate ai c ∧
       ∀ j', (k ≤ j' < j)%nat → ¬ candidate ai (cell_of ai rng j').
Proof.
  revert k. induction r as [|r IH]; intros k; simpl; [done|].
  destruct (decide (candidate ai (cell_of ai rng k))) as [Hc|Hc].
  - intros [= <-]. exists k.
    split; [lia|]. split; [done|]. split; [done|]. lia.
  - intros (j & Hj & -> & Hcj & Hbefore)%IH. exists j.
    split; [lia|]. split; [done|]. split; [done|].
    intros j' Hj'. destruct (decide (j' = k)) as [->|]; [done|].
    apply Hbefore. lia.
Qed.

Lemma first_candidate_None ai rng k r :
  first_candidate ai rng k r = None ↔
  ∀ j, (k ≤ j < k + r)%nat → ¬ candidate ai (cell_of ai rng j).
Proof.
  revert k. induction r as [|r IH]; intros k; simpl.
  - split; [lia|done].
  - destruct (decide (candidate ai (cell_of ai rng k))) as [Hc|Hc].
    + split; [done|]. intros Hall. destruct (Hall k); [lia|done].
    + rewrite IH. split; intros Hall j Hj.
      * destruct (decide (j = k)) as [->|]; [done|]. apply Hall. lia.
      * apply Hall. lia.
Qed.

(** ** The neighbours of a cell, and the count the game reports *)

Lemma block_NoDup c : NoDup (block c).
Proof.
  destruct c as [a b]. cbn.
  repeat (apply NoDup_cons_2;
    [set_unfold; intros H; repeat destruct H as [H|H];
       try (injection H; lia); done|]).
  apply NoDup_nil_2.
Qed.

Lemma get_neighbors_block ai c :
  MinesweeperAI.get_neighbors ai c =
  foldl (λ neighbors p,
    if decide (p = c) then neighbors
    else if decide (0 ≤ p.1 < MinesweeperAI.height ai ∧
                    0 ≤ p.2 < MinesweeperAI.width ai)
         then {[p]} ∪ neighbors else neighbors) ∅ (block c).
Proof. reflexivity. Qed.

(** The neighbours of a cell are the cells of the board, other than the
    cell, within one row and one column of it. *)
Lemma elem_of_get_neighbors ai c x :
  x ∈ MinesweeperAI.get_neighbors ai c ↔
  x ≠ c ∧ in_grid ai x ∧ c.1 - 1 ≤ x.1 ≤ c.1 + 1 ∧ c.2 - 1 ≤ x.2 ≤ c.2 + 1.
Proof.
  rewrite get_neighbors_block.
  assert (x ∈ block c ↔ c.1 - 1 ≤ x.1 ≤ c.1 + 1 ∧ c.2 - 1 ≤ x.2 ≤ c.2 + 1) as <-.
  { destruct c as [a b], x as [i j]. unfold block, around. cbn.
    rewrite !elem_of_cons, elem_of_nil. split.
    - intros H. repeat destruct H as [H|H]; try (injection H; lia); done.
    - intros [Hi Hj].
      assert (i = a - 1 ∨ i = a ∨ i = a + 1) as [->|[->| ->]] by lia;
        assert (j = b - 1 ∨ j = b ∨ j = b + 1) as [->|[->| ->]] by lia;
        tauto. }
  cut (∀ l (X : gset cell),
    x ∈ foldl (λ neighbors p,
      if decide (p = c) then neighbors
      else if decide (0 ≤ p.1 < MinesweeperAI.height ai ∧
                      0 ≤ p.2 < MinesweeperAI.width ai)
           then {[p]} ∪ neighbors else neighbors) X l ↔
    x ∈ X ∨ (x ≠ c ∧ in_grid ai x ∧ x ∈ l)).
  { intros ->. set_solver. }
  induction l as [|p l IH]; intros X; simpl.
  - set_solver.
  - rewrite IH. unfold in_grid.
    destruct (decide (p = c)) as [->|?]; [set_solver|].
    destruct (decide _); set_solver.
Qed.

(** ** Runs in which the order of iteration plays no part *)

Lemma set_add_length {A} `{EqDecision A} (x : A) (l : list A) :
  (length (set_add x l) ≤ S (length l))%nat.
Proof.
  unfold set_add. destruct (decide (x ∈ l)); [lia|].
  rewrite length_app. simpl. lia.
Qed.

Lemma derive_length KB ps acc l :
  MinesweeperAI.derive KB ps acc = inr l →
  (length l ≤ length acc + length ps)%nat.
Proof.
  revert acc. induction ps as [|[i j] ps IH]; intros acc; simpl.
  - intros [= <-]. lia.
  - destruct (KB !! i) as [si|]; [|done]. destruct (KB !! j) as [sj|]; [|done].
    destruct (decide _); [done|]. intros Hl%IH.
    pose proof (set_add_length
      (Sentence.Make (Sentence.cells sj ∖ Sentence.cells si)
         (Sentence.count sj - Sentence.count si)) acc).
    lia.
Qed.

Lemma infer_cells_any_order o ai :
  (length (MinesweeperAI.sentences_to_remove
             (MinesweeperAI.scan (MinesweeperAI.knowledge ai))) ≤ 1)%nat →
  MinesweeperAI.infer_cells o ai = MinesweeperAI.infer_cells insertion_order ai.
Proof.
  intros Hl. unfold MinesweeperAI.infer_cells.
  by rewrite (order_sentences_small o).
Qed.

Lemma infer_sentences_any_order o ai :
  (length (MinesweeperAI.subset_pairs (MinesweeperAI.knowledge ai)) ≤ 1)%nat →
  MinesweeperAI.infer_sentences o ai =
  MinesweeperAI.infer_sentences insertion_order ai.
Proof.
  intros Hl. unfold MinesweeperAI.infer_sentences.
  rewrite (order_pairs_small o) by done. simpl.
  destruct (MinesweeperAI.derive _ _ _) as [e|l] eqn:Hd; [done|].
  apply derive_length in Hd. simpl in Hd.
  rewrite (order_sentences_small o) by lia. done.
Qed.

(** A call that stages one sentence at most for removal and selects one
    pair at most leaves the same state in every order of iteration. *)
Lemma add_knowledge_any_order o ai c n :
  (length (MinesweeperAI.sentences_to_remove
     (MinesweeperAI.scan
        (MinesweeperAI.knowledge (MinesweeperAI.record_move ai c n)))) ≤ 1)%nat →
  (length (MinesweeperAI.subset_pairs
     (MinesweeperAI.knowledge (after_step4 insertion_order ai c n))) ≤ 1)%nat →
  MinesweeperAI.add_knowledge o ai c n =
  MinesweeperAI.add_knowledge insertion_order ai c n.
Proof.
  intros Hr Hp. rewrite !add_knowledge_steps. unfold after_step4 in *.
  rewrite (infer_cells_any_order o) by done.
  by apply infer_sentences_any_order.
Qed.

(** ** The board of the game *)

Lemma py_range_length n : length (py_range n) = Z.to_nat n.
Proof. apply length_seqZ. Qed.

Lemma py_range_lookup n (i : nat) :
  py_range n !! i = if decide (Z.of_nat i < n) then Some (Z.of_nat i) else None.
Proof.
  unfold py_range. destruct (decide _).
  - by rewrite lookup_seqZ_lt.
  - apply lookup_seqZ_ge. lia.
Qed.

Lemma foldl_snoc {A B : Type} (x : B) (l : list A) (acc : list B) :
  foldl (λ r _, r ++ [x]) acc l = acc ++ replicate (length l) x.
Proof.
  revert acc. induction l as [|a l IH]; intros acc; simpl.
  - by rewrite app_nil_r.
  - rewrite IH. by rewrite <- app_assoc.
Qed.

Lemma replicate_length_fmap {A B : Type} (l : list A) (y : B) :
  replicate (length l) y = (λ _, y) <$> l.
Proof. induction l as [|a l IH]; simpl; [done|]. by rewrite IH. Qed.

Lemma empty_board_board_of h w : Minesweeper.empty_board h w = board_of h w ∅.
Proof.
  unfold Minesweeper.empty_board, board_of.
  rewrite (foldl_snoc (foldl (λ row _, row ++ [false]) [] (py_range w))).
  rewrite (foldl_snoc false). simpl.
  rewrite !replicate_length_fmap.
  apply list_fmap_ext. intros _ i _. apply list_fmap_ext. intros _ j _.
  symmetry. apply bool_decide_eq_false. set_solver.
Qed.

Lemma board_of_lookup h w M (i : nat) :
  board_of h w M !! i =
  if decide (Z.of_nat i < h)
  then Some ((λ j, bool_decide ((Z.of_nat i, j) ∈ M)) <$> py_range w)
  else None.
Proof.
  unfold board_of. rewrite list_lookup_fmap, py_range_lookup.
  by destruct (decide _).
Qed.

Lemma board_of_length h w M : length (board_of h w M) = Z.to_nat h.
Proof. unfold board_of. by rewrite length_fmap, py_range_length. Qed.

Lemma board_of_add h w M (i j : Z) :
  0 ≤ i < h → 0 ≤ j < w →
  alter (λ row, <[Z.to_nat j := true]> row) (Z.to_nat i) (board_of h w M) =
  board_of h w ({[(i, j)]} ∪ M).
Proof.
  intros Hi Hj. apply list_eq. intros i'.
  rewrite list_lookup_alter, !board_of_lookup.
  destruct (decide (Z.to_nat i = i')) as [<-|Hne].
  - rewrite Z2Nat.id by lia. rewrite !decide_True by lia. simpl.
    apply (f_equal Some). apply list_eq. intros j'.
    rewrite list_lookup_insert, !list_lookup_fmap, length_fmap, py_range_length,
      py_range_lookup.
    destruct (decide (Z.of_nat j' < w)) as [Hlt|Hge]; simpl.
    + destruct (decide (Z.to_nat j = j')) as [<-|Hnej].
      * rewrite decide_True by lia. rewrite Z2Nat.id by lia. f_equal.
        symmetry. apply bool_decide_eq_true. set_solver.
      * rewrite decide_False by tauto. f_equal.
        apply bool_decide_ext. set_unfold. naive_solver lia.
    + by rewrite decide_False by lia.
  - destruct (decide (Z.of_nat i' < h)); [|done]. apply (f_equal Some).
    apply list_fmap_ext. intros _ j0 _. apply bool_decide_ext. set_unfold.
    naive_solver lia.
Qed.

Lemma size_list_to_set_le (l : list cell) :
  (size (list_to_set l : gset cell) ≤ length l)%nat.
Proof.
  induction l as [|x l IH].
  - simpl. change (size (∅ : gset cell) ≤ 0)%nat. by rewrite size_empty.
  - rewrite list_to_set_cons. simpl length.
    rewrite size_union_alt, size_singleton.
    pose proof (subseteq_size (list_to_set l ∖ {[x]}) (list_to_set l : gset cell)) as Hle.
    assert (list_to_set l ∖ {[x]} ⊆ (list_to_set l : gset cell)) by set_solver.
    specialize (Hle H). lia.
Qed.

Lemma size_within (X : gset cell) (h w : Z) :
  0 ≤ h → 0 ≤ w →
  (∀ c, c ∈ X → 0 ≤ c.1 < h ∧ 0 ≤ c.2 < w) →
  Z.of_nat (size X) ≤ h * w.
Proof.
  intros Hh Hw HX.
  assert (X ⊆ list_to_set (cprod (seqZ 0 h) (seqZ 0 w))) as Hsub.
  { intros c Hc. apply elem_of_list_to_set, list_elem_of_cprod.
    rewrite !elem_of_seqZ. specialize (HX c Hc). lia. }
  apply subseteq_size in Hsub.
  pose proof (size_list_to_set_le (cprod (seqZ 0 h) (seqZ 0 w))) as Hle.
  rewrite list_cprod_list_prod in Hsub, Hle.
  rewrite length_prod, !length_seqZ in Hle.
  assert (Z.of_nat (Z.to_nat h * Z.to_nat w) = h * w) as Heq.
  { rewrite Nat2Z.inj_mul, !Z2Nat.id by lia. done. }
  lia.
Qed.

Lemma py_index_fmap_range {B : Type} (f : Z → B) (n i : Z) :
  py_index (f <$> py_range n) i =
  if decide (0 ≤ wrap n i < n) then inr (f (wrap n i)) else inl IndexError.
Proof.
  unfold py_index, wrap. rewrite length_fmap, py_range_length.
  destruct (decide (i < 0)) as [Hneg|Hpos].
  - destruct (decide (0 ≤ n)) as [Hn|Hn].
    + rewrite Z2Nat.id by lia.
      destruct (decide (n + i < 0)); [by rewrite decide_False by lia|].
      rewrite list_lookup_fmap, py_range_lookup, Z2Nat.id by lia.
      rewrite !decide_True by lia. done.
    + rewrite Z2Nat.nonpos by lia. simpl.
      rewrite decide_True by lia. by rewrite decide_False by lia.
  - rewrite decide_False by lia.
    rewrite list_lookup_fmap, py_range_lookup, Z2Nat.id by lia.
    destruct (decide (i < n)); [by rewrite decide_True by lia|].
    by rewrite decide_False by lia.
Qed.

Lemma board_at_board_of g i j :
  well_formed g →
  Minesweeper.board_at g i j =
  if decide (0 ≤ wrap (Minesweeper.height g) i < Minesweeper.height g ∧
             0 ≤ wrap (Minesweeper.width g) j < Minesweeper.width g)
  then inr (bool_decide ((wrap (Minesweeper.height g) i,
                          wrap (Minesweeper.width g) j) ∈ Minesweeper.mines g))
  else inl IndexError.
Proof.
  intros [Hb _]. unfold Minesweeper.board_at. rewrite Hb. unfold board_of.
  rewrite py_index_fmap_range.
  destruct (decide (0 ≤ wrap (Minesweeper.height g) i < Minesweeper.height g)).
  - rewrite py_index_fmap_range.
    destruct (decide (0 ≤ wrap (Minesweeper.width g) j < Minesweeper.width g)).
    + by rewrite decide_True by done.
    + by rewrite decide_False by tauto.
  - by rewrite decide_False by tauto.
Qed.

Lemma wrap_nonneg n i : 0 ≤ i → wrap n i = i.
Proof. intros. unfold wrap. by rewrite decide_False by lia. Qed.

Lemma drawn_cell_on_board g rng k :
  0 < Minesweeper.height g → 0 < Minesweeper.width g →
  on_board g (drawn_cell (Minesweeper.height g) (Minesweeper.width g) rng k).
Proof. intros Hh Hw. split; simpl; by apply Z.mod_pos_bound. Qed.

Lemma with_mine_well_formed g c :
  well_formed g → on_board g c → well_formed (with_mine g c).
Proof.
  intros [Hb Hm] Hc. split; [done|]. simpl. intros c' [->%elem_of_singleton|?]%elem_of_union.
  - done.
  - by apply Hm.
Qed.

Lemma empty_game_well_formed h w :
  well_formed
    {| Minesweeper.height := h; Minesweeper.width := w; Minesweeper.mines := ∅;
       Minesweeper.board := Minesweeper.empty_board h w;
       Minesweeper.mines_found := ∅ |}.
Proof. split; simpl; [apply empty_board_board_of|set_solver]. Qed.

(** ** The loop of [__init__] that places the mines *)

Lemma place_mines_unfold rng k wanted g rounds :
  Minesweeper.place_mines rng k wanted g rounds =
  if decide (Z.of_nat (size (Minesweeper.mines g)) ≠ wanted) then
    match rounds with
    | O => None
    | S rounds' =>
        match MinesweeperAI.randrange (rng (2 * k)%nat) (Minesweeper.height g) with
        | inl e => Some (inl e)
        | inr i =>
            match MinesweeperAI.randrange (rng (2 * k + 1)%nat) (Minesweeper.width g) with
            | inl e => Some (inl e)
            | inr j =>
                match Minesweeper.board_at g i j with
                | inl e => Some (inl e)
                | inr true => Minesweeper.place_mines rng (S k) wanted g rounds'
                | inr false =>
                    Minesweeper.place_mines rng (S k) wanted
                      {| Minesweeper.height := Minesweeper.height g;
                         Minesweeper.width := Minesweeper.width g;
                         Minesweeper.mines := {[(i, j)]} ∪ Minesweeper.mines g;
                         Minesweeper.board :=
                           alter (λ row, <[Z.to_nat j := true]> row)
                             (Z.to_nat i) (Minesweeper.board g);
                         Minesweeper.mines_found := Minesweeper.mines_found g |}
                      rounds'
                end
            end
        end
    end
  else Some (inr g).
Proof. by destruct rounds. Qed.

(** One round of the loop on a board with cells: the cell drawn is a mine
    from then on. *)
Lemma place_mines_step rng k wanted g rounds :
  well_formed g → 0 < Minesweeper.height g → 0 < Minesweeper.width g →
  Z.of_nat (size (Minesweeper.mines g)) ≠ wanted →
  Minesweeper.place_mines rng k wanted g (S rounds) =
  Minesweeper.place_mines rng (S k) wanted
    (with_mine g (drawn_cell (Minesweeper.height g) (Minesweeper.width g) rng k))
    rounds.
Proof.
  intros Hwf Hh Hw Hne. rewrite place_mines_unfold.
  rewrite decide_True by done. unfold MinesweeperAI.randrange.
  rewrite !decide_True by done.
  unfold drawn_cell.
  set (i := rng (2 * k)%nat `mod` Minesweeper.height g).
  set (j := rng (2 * k + 1)%nat `mod` Minesweeper.width g).
  assert (0 ≤ i < Minesweeper.height g) as Hi by by apply Z.mod_pos_bound.
  assert (0 ≤ j < Minesweeper.width g) as Hj by by apply Z.mod_pos_bound.
  rewrite board_at_board_of by done.
  rewrite !wrap_nonneg by lia. rewrite decide_True by done.
  destruct Hwf as [Hb Hm].
  destruct (bool_decide ((i, j) ∈ Minesweeper.mines g)) eqn:Hin.
  - apply bool_decide_eq_true in Hin. f_equal.
    destruct g as [h w M B F]. unfold with_mine. simpl in *.
    assert ({[(i, j)]} ∪ M = M) as -> by set_solver. by rewrite Hb.
  - f_equal. unfold with_mine. f_equal.
    rewrite Hb. by apply board_of_add.
Qed.

Lemma place_mines_empty_grid rng k wanted g rounds :
  ¬ (0 < Minesweeper.height g ∧ 0 < Minesweeper.width g) →
  Z.of_nat (size (Minesweeper.mines g)) ≠ wanted →
  Minesweeper.place_mines rng k wanted g (S rounds) = Some (inl ValueError).
Proof.
  intros Hg Hne. rewrite place_mines_unfold.
  rewrite decide_True by done. unfold MinesweeperAI.randrange.
  destruct (decide (0 < Minesweeper.height g)); [|done].
  destruct (decide (0 < Minesweeper.width g)); [tauto|done].
Qed.

Lemma place_mines_done rng k wanted g rounds :
  Z.of_nat (size (Minesweeper.mines g)) = wanted →
  Minesweeper.place_mines rng k wanted g rounds = Some (inr g).
Proof. intros Heq. rewrite place_mines_unfold. by rewrite decide_False by tauto. Qed.

Lemma place_mines_returns rng wanted rounds :
  ∀ k g g',
    well_formed g →
    Minesweeper.place_mines rng k wanted g rounds = Some (inr g') →
    well_formed g' ∧
    Z.of_nat (size (Minesweeper.mines g')) = wanted ∧
    Minesweeper.height g' = Minesweeper.height g ∧
    Minesweeper.width g' = Minesweeper.width g ∧
    Minesweeper.mines g ⊆ Minesweeper.mines g' ∧
    Minesweeper.mines_found g' = Minesweeper.mines_found g.
Proof.
  induction rounds as [|rounds IH]; intros k g g' Hwf.
  - rewrite place_mines_unfold. destruct (decide _) as [|Heq%dec_stable]; [done|].
    intros [= <-]. done.
  - destruct (decide (Z.of_nat (size (Minesweeper.mines g)) = wanted)) as [Heq|Hne].
    { rewrite place_mines_done by done. intros [= <-]. done. }
    destruct (decide (0 < Minesweeper.height g ∧ 0 < Minesweeper.width g))
      as [[Hh Hw]|Hg]; [|by rewrite place_mines_empty_grid].
    rewrite place_mines_step by done. intros Hret%IH.
    + destruct Hret as (? & ? & ? & ? & Hsub & ?). split_and!; try done.
      simpl in Hsub. set_solver.
    + by apply with_mine_well_formed, drawn_cell_on_board.
Qed.

Lemma wf_size g :
  well_formed g →
  Z.of_nat (size (Minesweeper.mines g)) ≤
  Z.max 0 (Minesweeper.height g) * Z.max 0 (Minesweeper.width g).
Proof.
  intros [_ Hm]. apply size_within; [lia..|].
  intros c Hc. destruct (Hm c Hc). lia.
Qed.

Lemma place_mines_never rng wanted rounds :
  ∀ k g,
    well_formed g → 0 < Minesweeper.height g → 0 < Minesweeper.width g →
    wanted < 0 ∨ Minesweeper.height g * Minesweeper.width g < wanted →
    Minesweeper.place_mines rng k wanted g rounds = None.
Proof.
  induction rounds as [|rounds IH]; intros k g Hwf Hh Hw Hwanted.
  - rewrite place_mines_unfold. rewrite decide_True; [done|].
    pose proof (wf_size g Hwf). lia.
  - rewrite place_mines_step; [|done..|].
    + apply IH; [|done..]. by apply with_mine_well_formed, drawn_cell_on_board.
    + pose proof (wf_size g Hwf). lia.
Qed.

Lemma drawn_cons h w rng k r :
  drawn h w rng k (S r) = {[drawn_cell h w rng k]} ∪ drawn h w rng (S k) r.
Proof. done. Qed.

Lemma place_mines_finishes rng wanted rounds :
  ∀ k g,
    well_formed g → 0 < Minesweeper.height g → 0 < Minesweeper.width g →
    Z.of_nat (size (Minesweeper.mines g)) ≤ wanted →
    wanted ≤ Z.of_nat (size (Minesweeper.mines g ∪
               drawn (Minesweeper.height g) (Minesweeper.width g) rng k rounds)) →
    ∃ g', Minesweeper.place_mines rng k wanted g rounds = Some (inr g').
Proof.
  induction rounds as [|rounds IH]; intros k g Hwf Hh Hw Hle Hge.
  - exists g. apply place_mines_done.
    unfold drawn in Hge. simpl in Hge. rewrite union_empty_r_L in Hge. lia.
  - destruct (decide (Z.of_nat (size (Minesweeper.mines g)) = wanted)) as [Heq|Hne].
    { exists g. by apply place_mines_done. }
    rewrite place_mines_step by done.
    apply IH; simpl; [by apply with_mine_well_formed, drawn_cell_on_board|done..| |].
    + rewrite size_union_alt, size_singleton.
      pose proof (subseteq_size
        (Minesweeper.mines g ∖ {[drawn_cell (Minesweeper.height g) (Minesweeper.width g) rng k]})
        (Minesweeper.mines g)) as Hs.
      assert (Z.of_nat (size (Minesweeper.mines g ∖ {[drawn_cell (Minesweeper.height g) (Minesweeper.width g) rng k]})) ≤ Z.of_nat (size (Minesweeper.mines g))).
      { apply inj_le, Hs. set_solver. }
      lia.
    + rewrite drawn_cons in Hge.
      replace ({[drawn_cell (Minesweeper.height g) (Minesweeper.width g) rng k]} ∪ Minesweeper.mines g ∪ drawn (Minesweeper.height g) (Minesweeper.width g) rng (S k) rounds)
        with (Minesweeper.mines g ∪ ({[drawn_cell (Minesweeper.height g) (Minesweeper.width g) rng k]} ∪ drawn (Minesweeper.height g) (Minesweeper.width g) rng (S k) rounds))
        by set_solver.
      done.
Qed.

(** Once the loop has ended, more rounds change nothing. *)
Lemma place_mines_more_rounds rng wanted rounds extra :
  ∀ k g r,
    Minesweeper.place_mines rng k wanted g rounds = Some r →
    Minesweeper.place_mines rng k wanted g (rounds + extra) = Some r.
Proof.
  induction rounds as [|rounds IH]; intros k g r.
  - rewrite !place_mines_unfold. destruct (decide _); [done|].
    intros <-. by destruct extra.
  - simpl. destruct (decide _); [|done].
    destruct (MinesweeperAI.randrange _ _); [done|].
    destruct (MinesweeperAI.randrange _ _); [done|].
    destruct (Minesweeper.board_at g z z0) as [|[]]; [done|apply IH..].
Qed.

Lemma place_mines_within_drawn rng wanted rounds :
  ∀ k g g',
    well_formed g →
    Minesweeper.place_mines rng k wanted g rounds = Some (inr g') →
    Minesweeper.mines g' ⊆
    Minesweeper.mines g ∪
    drawn (Minesweeper.height g) (Minesweeper.width g) rng k rounds.
Proof.
  induction rounds as [|rounds IH]; intros k g g' Hwf.
  - rewrite place_mines_unfold. destruct (decide _); [done|].
    intros [= <-]. set_solver.
  - destruct (decide (Z.of_nat (size (Minesweeper.mines g)) = wanted)) as [Heq|Hne].
    { rewrite place_mines_done by done. intros [= <-]. set_solver. }
    destruct (decide (0 < Minesweeper.height g ∧ 0 < Minesweeper.width g))
      as [[Hh Hw]|Hg]; [|by rewrite place_mines_empty_grid].
    rewrite place_mines_step by done. intros Hret%IH.
    + rewrite drawn_cons. simpl in Hret. set_solver.
    + by apply with_mine_well_formed, drawn_cell_on_board.
Qed.

(** The generator that goes through the board row by row draws a new cell
    in every round, as long as the board has cells left. *)
Lemma drawn_cell_row_major h w (k : nat) :
  0 < w → Z.of_nat k < h * w →
  drawn_cell h w (row_major w) k = (Z.of_nat k `div` w, Z.of_nat k `mod` w).
Proof.
  intros Hw Hk. unfold drawn_cell, row_major.
  replace (Nat.even (2 * k)) with true
    by (symmetry; apply Nat.even_spec; by exists k).
  replace (Nat.even (2 * k + 1)) with false.
  2:{ symmetry. rewrite <- Nat.negb_odd. apply negb_false_iff, Nat.odd_spec. by exists k. }
  replace ((2 * k) `div` 2)%nat with k
    by (rewrite Nat.mul_comm, Nat.div_mul; done).
  replace ((2 * k + 1) `div` 2)%nat with k.
  2:{ rewrite Nat.mul_comm, Nat.div_add_l by done. simpl. lia. }
  f_equal.
  - apply Z.mod_small. split; [apply Z.div_pos; lia|].
    apply Z.div_lt_upper_bound; lia.
  - apply Z.mod_small, Z.mod_pos_bound. lia.
Qed.

Lemma drawn_row_major h w (r : nat) :
  0 < w → Z.of_nat r ≤ h * w →
  size (drawn h w (row_major w) 0 r) = r.
Proof.
  intros Hw Hr. unfold drawn.
  rewrite size_list_to_set, length_fmap, length_seq; [done|].
  apply NoDup_fmap_2_strong; [|apply NoDup_seq].
  intros k k' Hk%elem_of_seq Hk'%elem_of_seq.
  rewrite !drawn_cell_row_major by lia. intros [= Hd Hm].
  pose proof (Z.div_mod (Z.of_nat k) w). pose proof (Z.div_mod (Z.of_nat k') w).
  nia.
Qed.

(** ** What the game answers *)

Lemma board_at_on_board g c :
  well_formed g → on_board g c →
  Minesweeper.board_at g c.1 c.2 = inr (bool_decide (c ∈ Minesweeper.mines g)).
Proof.
  intros Hwf [Hi Hj]. rewrite board_at_board_of by done.
  rewrite !wrap_nonneg by lia. rewrite decide_True by done. by destruct c.
Qed.

Lemma nearby_mines_block g c :
  Minesweeper.nearby_mines g c =
  foldl (λ count p,
    match count with
    | inl e => inl e
    | inr count =>
        if decide (p = c) then inr count
        else if decide (0 ≤ p.1 < Minesweeper.height g ∧
                        0 ≤ p.2 < Minesweeper.width g)
             then match Minesweeper.board_at g p.1 p.2 with
                  | inl e => inl e
                  | inr true => inr (count + 1)
                  | inr false => inr count
                  end
             else inr count
    end) (inr 0) (block c).
Proof. reflexivity. Qed.

Lemma nearby_mines_neighbors g ai c :
  well_formed g →
  Minesweeper.height g = MinesweeperAI.height ai →
  Minesweeper.width g = MinesweeperAI.width ai →
  Minesweeper.nearby_mines g c =
  inr (Z.of_nat (size (MinesweeperAI.get_neighbors ai c ∩ Minesweeper.mines g))).
Proof.
  intros Hwf Hh Hw. rewrite nearby_mines_block, get_neighbors_block, <- Hh, <- Hw.
  pose proof (block_NoDup c) as Hnd. revert Hnd.
  cut (∀ l (X : gset cell) k,
    NoDup l → (∀ p, p ∈ l → p ∉ X) →
    k = Z.of_nat (size (X ∩ Minesweeper.mines g)) →
    foldl (λ count p,
      match count with
      | inl e => inl e
      | inr count =>
          if decide (p = c) then inr count
          else if decide (0 ≤ p.1 < Minesweeper.height g ∧
                          0 ≤ p.2 < Minesweeper.width g)
               then match Minesweeper.board_at g p.1 p.2 with
                    | inl e => inl e
                    | inr true => inr (count + 1)
                    | inr false => inr count
                    end
               else inr count
      end) (inr k) l =
    inr (Z.of_nat (size (foldl (λ neighbors p,
      if decide (p = c) then neighbors
      else if decide (0 ≤ p.1 < Minesweeper.height g ∧
                      0 ≤ p.2 < Minesweeper.width g)
           then {[p]} ∪ neighbors else neighbors) X l ∩ Minesweeper.mines g)))).
  { intros Hcut Hnd. apply Hcut; [done|set_solver|].
    by rewrite intersection_empty_l_L, size_empty. }
  induction l as [|p l IH]; intros X k Hnd Hfresh Hk; simpl; [by subst|].
  apply NoDup_cons in Hnd as [Hp Hnd].
  assert (∀ q, q ∈ l → q ∉ X) as Hfresh' by (intros q ?; apply Hfresh; by right).
  assert (p ∉ X) as HpX by (apply Hfresh; by left).
  destruct (decide (p = c)); [by apply IH|].
  destruct (decide _) as [Hin|]; [|by apply IH].
  rewrite board_at_on_board by done.
  destruct (bool_decide (p ∈ Minesweeper.mines g)) eqn:Hm.
  - apply bool_decide_eq_true in Hm. apply IH; [done|set_solver|].
    rewrite (comm_L (∩) ({[p]} ∪ X)), size_inter_insert by done.
    rewrite (comm_L (∩) (Minesweeper.mines g)). lia.
  - apply bool_decide_eq_false in Hm. apply IH; [done|set_solver|].
    replace (({[p]} ∪ X) ∩ Minesweeper.mines g) with (X ∩ Minesweeper.mines g)
      by set_solver.
    done.
Qed.

Lemma is_mine_wrap g i j :
  well_formed g →
  Minesweeper.is_mine g (i, j) =
  if decide (on_board g (wrap (Minesweeper.height g) i, wrap (Minesweeper.width g) j))
  then inr (bool_decide ((wrap (Minesweeper.height g) i,
                          wrap (Minesweeper.width g) j) ∈ Minesweeper.mines g))
  else inl IndexError.
Proof. intros Hwf. unfold Minesweeper.is_mine. simpl. by rewrite board_at_board_of. Qed.

Lemma is_mine_false g c :
  well_formed g → Minesweeper.is_mine g c = inr false → c ∉ Minesweeper.mines g.
Proof.
  intros Hwf. destruct c as [i j]. rewrite is_mine_wrap by done.
  destruct (decide _) as [[Hi Hj]|]; [|done]. simpl in Hi, Hj.
  intros [= Hb%bool_decide_eq_false] Hin.
  destruct (wf_mines g Hwf _ Hin) as [Hi' Hj']. simpl in Hi', Hj'.
  rewrite !wrap_nonneg in Hb by lia. done.
Qed.

Lemma nearby_mines_truthful g ai c :
  well_formed g →
  Minesweeper.height g = MinesweeperAI.height ai →
  Minesweeper.width g = MinesweeperAI.width ai →
  c ∉ Minesweeper.mines g →
  ∃ n, Minesweeper.nearby_mines g c = inr n ∧
       truthful (Minesweeper.mines g) ai c n.
Proof.
  intros Hwf Hh Hw Hc. eexists. split; [by apply nearby_mines_neighbors|done].
Qed.

(** ** make_safe_move *)

Lemma safe_move_loop_Some ai l c :
  MinesweeperAI.safe_move_loop ai l = Some c →
  c ∈ l ∧ c ∉ MinesweeperAI.moves_made ai.
Proof.
  induction l as [|x l IH]; simpl; [done|].
  destruct (decide (x ∉ MinesweeperAI.moves_made ai)).
  - intros [= <-]. split; [by left|done].
  - intros [??]%IH. split; [by right|done].
Qed.

Lemma safe_move_loop_None ai l :
  MinesweeperAI.safe_move_loop ai l = None ↔
  ∀ c, c ∈ l → c ∈ MinesweeperAI.moves_made ai.
Proof.
  induction l as [|x l IH]; simpl.
  - split; [by intros _ c ?%elem_of_nil|done].
  - destruct (decide (x ∉ MinesweeperAI.moves_made ai)) as [Hx|Hx%dec_stable].
    + split; [done|]. intros Hall. destruct Hx. apply Hall. by left.
    + rewrite IH. split.
      * intros Hall c [->|?]%elem_of_cons; [done|by apply Hall].
      * intros Hall c ?. apply Hall. by right.
Qed.

Lemma elem_of_order_cells (co : cell_order) (X : gset cell) (c : cell) :
  c ∈ order_cells co X ↔ c ∈ X.
Proof. by rewrite order_cells_perm, elem_of_elements. Qed.

Lemma make_safe_move_Some co ai c :
  MinesweeperAI.make_safe_move co ai = Some c →
  c ∈ MinesweeperAI.safes ai ∧ c ∉ MinesweeperAI.moves_made ai.
Proof.
  intros [Hc ?]%safe_move_loop_Some. by apply elem_of_order_cells in Hc.
Qed.

Lemma make_safe_move_None co ai :
  MinesweeperAI.make_safe_move co ai = None ↔
  MinesweeperAI.safes ai ⊆ MinesweeperAI.moves_made ai.
Proof.
  unfold MinesweeperAI.make_safe_move. rewrite safe_move_loop_None.
  by setoid_rewrite elem_of_order_cells.
Qed.

(** ** The sentences and the cells that a call of add_knowledge leaves *)

Lemma record_move_without_cell ai c n s :
  s ∈ MinesweeperAI.knowledge (MinesweeperAI.record_move ai c n) →
  c ∉ Sentence.cells s.
Proof.
  rewrite record_move_knowledge, elem_of_app, list_elem_of_fmap.
  intros [(s' & -> & _)|Hs%list_elem_of_singleton].
  - rewrite sentence_mark_safe_cells. set_solver.
  - subst s. unfold fresh_sentence. simpl. set_solver.
Qed.

Lemma add_knowledge_knowledge o ai c n s :
  s ∈ MinesweeperAI.knowledge (MinesweeperAI.add_knowledge o ai c n).1 →
  s ∈ MinesweeperAI.knowledge (MinesweeperAI.record_move ai c n) ∨
  ∃ a b, a ∈ MinesweeperAI.knowledge (MinesweeperAI.record_move ai c n) ∧
         b ∈ MinesweeperAI.knowledge (MinesweeperAI.record_move ai c n) ∧
         Sentence.cells a ⊆ Sentence.cells b ∧ s = derived a b.
Proof.
  rewrite add_knowledge_steps.
  destruct (MinesweeperAI.infer_sentences o (after_step4 o ai c n))
    as [ai' [e|]] eqn:Hi; simpl.
  - apply infer_sentences_raised in Hi as (-> & _).
    intros ?%infer_cells_knowledge. by left.
  - apply infer_sentences_returns in Hi as (added & -> & _ & Hadded & _).
    intros [?%infer_cells_knowledge|(a & b & Hp & ->)%Hadded]%elem_of_app;
      [by left|right].
    destruct (pair_of_elem _ _ _ Hp) as [Ha%infer_cells_knowledge Hb%infer_cells_knowledge].
    exists a, b. split_and!; [done..| |done]. by eapply pair_of_subseteq.
Qed.

Lemma mark_safe_foldl (l : list cell) (s : Sentence) :
  foldl Sentence.mark_safe s l =
  Sentence.Make (Sentence.cells s ∖ list_to_set l) (Sentence.count s).
Proof.
  revert s. induction l as [|x l IH]; intros s; simpl.
  - rewrite difference_empty_L. by rewrite sentence_eta.
  - rewrite IH. apply sentence_eq; simpl.
    + rewrite sentence_mark_safe_cells. set_solver.
    + by rewrite sentence_mark_safe_count.
Qed.

Lemma mark_mine_foldl (l : list cell) (s : Sentence) :
  NoDup l →
  foldl Sentence.mark_mine s l =
  Sentence.Make (Sentence.cells s ∖ list_to_set l)
    (Sentence.count s - Z.of_nat (size (Sentence.cells s ∩ list_to_set l))).
Proof.
  revert s. induction l as [|x l IH]; intros s Hnd; simpl.
  - rewrite difference_empty_L, intersection_empty_r_L, size_empty, Z.sub_0_r.
    by rewrite sentence_eta.
  - apply NoDup_cons in Hnd as [Hx Hnd]. rewrite IH by done.
    assert (x ∉ (list_to_set l : gset cell)) as Hx' by by rewrite elem_of_list_to_set.
    apply sentence_eq; simpl.
    + rewrite sentence_mark_mine_cells. set_solver.
    + rewrite sentence_mark_mine_count, sentence_mark_mine_cells.
      replace ((Sentence.cells s ∖ {[x]}) ∩ list_to_set l)
        with (Sentence.cells s ∩ list_to_set l) by set_solver.
      destruct (decide (x ∈ Sentence.cells s)) as [Hin|Hin].
      * rewrite size_inter_insert by done. lia.
      * replace (Sentence.cells s ∩ ({[x]} ∪ list_to_set l))
          with (Sentence.cells s ∩ list_to_set l) by set_solver.
        done.
Qed.

Lemma list_to_set_order_cells (co : cell_order) (X : gset cell) :
  list_to_set (order_cells co X) = X.
Proof.
  apply set_eq. intros x. by rewrite elem_of_list_to_set, elem_of_order_cells.
Qed.

Lemma NoDup_order_cells (co : cell_order) (X : gset cell) :
  NoDup (order_cells co X).
Proof. rewrite order_cells_perm. apply NoDup_elements. Qed.

Lemma add_knowledge_height o ai c n :
  MinesweeperAI.height (MinesweeperAI.add_knowledge o ai c n).1 =
  MinesweeperAI.height ai.
Proof.
  rewrite add_knowledge_steps. unfold after_step4, MinesweeperAI.infer_sentences.
  destruct (infer_cells_ok o (MinesweeperAI.record_move ai c n)) as (KB' & -> & _).
  by destruct (MinesweeperAI.derive _ _ _).
Qed.

Lemma add_knowledge_width o ai c n :
  MinesweeperAI.width (MinesweeperAI.add_knowledge o ai c n).1 =
  MinesweeperAI.width ai.
Proof.
  rewrite add_knowledge_steps. unfold after_step4, MinesweeperAI.infer_sentences.
  destruct (infer_cells_ok o (MinesweeperAI.record_move ai c n)) as (KB' & -> & _).
  by destruct (MinesweeperAI.derive _ _ _).
Qed.

Lemma fresh_sentence_in_knowledge ai c n :
  fresh_sentence ai c n ∈
  MinesweeperAI.knowledge (MinesweeperAI.record_move ai c n).
Proof.
  rewrite record_move_knowledge, elem_of_app. right. by apply list_elem_of_singleton.
Qed.

Lemma size_difference_inter (U X : gset cell) :
  size U = (size (U ∩ X) + size (U ∖ X))%nat.
Proof.
  rewrite <- size_union by set_solver. f_equal.
  apply set_eq. intros x. destruct (decide (x ∈ X)); set_solver.
Qed.

Lemma add_knowledge_clear ai o c :
  MinesweeperAI.get_neighbors ai c ## MinesweeperAI.mines ai →
  MinesweeperAI.get_neighbors ai c ⊆
  MinesweeperAI.safes (MinesweeperAI.add_knowledge o ai c 0).1.
Proof.
  intros Hdisj x Hx. rewrite add_knowledge_safes.
  destruct (decide (x ∈ {[c]} ∪ MinesweeperAI.safes ai)) as [|Hnew]; [set_solver|].
  apply elem_of_union. right. apply elem_of_scan_safes.
  exists (fresh_sentence ai c 0). split; [apply fresh_sentence_in_knowledge|].
  unfold fresh_sentence. simpl. split; [|set_solver].
  replace (MinesweeperAI.get_neighbors ai c ∖ ({[c]} ∪ MinesweeperAI.safes ai)
             ∩ MinesweeperAI.mines ai) with (∅ : gset cell) by set_solver.
  by rewrite size_empty.
Qed.

Lemma holds_mark_mine_iff M s c :
  holds M s → c ∈ Sentence.cells s →
  holds M (Sentence.mark_mine s c) ↔ c ∈ M.
Proof.
  intros Hs Hc. split; [|by intros; apply holds_mark_mine].
  unfold holds in *. rewrite sentence_mark_mine_count, sentence_mark_mine_cells.
  rewrite decide_True by done. intros Hm.
  destruct (decide (c ∈ M)) as [|Hout]; [done|].
  replace ((Sentence.cells s ∖ {[c]}) ∩ M) with (Sentence.cells s ∩ M) in Hm
    by set_solver.
  lia.
Qed.

Lemma holds_mark_safe_iff M s c :
  holds M s → c ∈ Sentence.cells s →
  holds M (Sentence.mark_safe s c) ↔ c ∉ M.
Proof.
  intros Hs Hc. split; [|by intros; apply holds_mark_safe].
  unfold holds in *. rewrite sentence_mark_safe_count, sentence_mark_safe_cells.
  intros Hm Hin.
  rewrite (size_split {[c]} (Sentence.cells s) M) in Hs by set_solver.
  replace ({[c]} ∩ M) with ({[c]} : gset cell) in Hs by set_solver.
  rewrite size_singleton in Hs. lia.
Qed.

(** ** Plays *)

Lemma add_knowledge_within_grid o ai c n :
  within_grid ai → within_grid (MinesweeperAI.add_knowledge o ai c n).1.
Proof.
  intros [Hk Hm].
  assert (∀ s x, s ∈ MinesweeperAI.knowledge (MinesweeperAI.record_move ai c n) →
                 x ∈ Sentence.cells s → in_grid ai x) as Hrec.
  { intros s x. rewrite record_move_knowledge, elem_of_app, list_elem_of_fmap.
    intros [(s' & -> & Hs')|Hs%list_elem_of_singleton] Hx.
    - rewrite sentence_mark_safe_cells in Hx. apply (Hk s'); [done|set_solver].
    - subst s. unfold fresh_sentence in Hx. simpl in Hx.
      assert (x ∈ MinesweeperAI.get_neighbors ai c) as Hn by set_solver.
      by apply elem_of_get_neighbors in Hn as (_ & ? & _). }
  unfold within_grid, in_grid. rewrite add_knowledge_height, add_knowledge_width.
  split.
  - intros s x [Hs|(a & b & _ & Hb & _ & ->)]%add_knowledge_knowledge Hx.
    + by eapply Hrec.
    + simpl in Hx. apply (Hrec b); [done|set_solver].
  - intros x. rewrite add_knowledge_mines.
    intros [?|(s & Hs & _ & Hx)%elem_of_scan_mines]%elem_of_union.
    + by apply Hm.
    + by eapply Hrec.
Qed.

Lemma played_within_grid ai : played ai → within_grid ai.
Proof.
  induction 1 as [h w|o ai c n _ IH].
  - split; simpl; [by intros s x ?%elem_of_nil|set_solver].
  - by apply add_knowledge_within_grid.
Qed.

Lemma plays_played g ai : plays g ai → played ai.
Proof. induction 1; by constructor. Qed.

Lemma plays_height_width g ai :
  plays g ai →
  MinesweeperAI.height ai = Minesweeper.height g ∧
  MinesweeperAI.width ai = Minesweeper.width g.
Proof.
  induction 1 as [|o ai c n _ IH _ _]; [done|].
  by rewrite add_knowledge_height, add_knowledge_width.
Qed.

Lemma plays_reachable g ai :
  well_formed g → plays g ai → reachable (Minesweeper.mines g) ai.
Proof.
  intros Hwf. induction 1 as [|o ai c n Hp IH Hm Hn]; [constructor|].
  constructor; [done|].
  destruct (plays_height_width g ai Hp) as [Hh Hw].
  destruct (nearby_mines_truthful g ai c) as (n' & Hn' & Ht);
    [done..|by apply is_mine_false|].
  rewrite Hn in Hn'. by injection Hn' as ->.
Qed.

Lemma played_safes ai c :
  played ai → c ∈ MinesweeperAI.safes ai →
  c ∈ MinesweeperAI.moves_made ai ∨ in_grid ai c.
Proof.
  induction 1 as [h w|o ai c' n Hp IH]; [set_solver|].
  rewrite add_knowledge_safes, add_knowledge_moves_made.
  unfold in_grid. rewrite add_knowledge_height, add_knowledge_width.
  intros [[->%elem_of_singleton|Hc]%elem_of_union|Hc]%elem_of_union.
  - left. set_solver.
  - destruct (IH Hc); [left; set_solver|by right].
  - right. apply elem_of_scan_safes in Hc as (s & Hs & _ & Hc).
    apply played_within_grid in Hp as [Hk _].
    revert Hs. rewrite record_move_knowledge, elem_of_app, list_elem_of_fmap.
    intros [(s' & -> & Hs')|Hs%list_elem_of_singleton].
    + rewrite sentence_mark_safe_cells in Hc. apply (Hk s'); [done|set_solver].
    + subst s. unfold fresh_sentence in Hc. simpl in Hc.
      assert (c ∈ MinesweeperAI.get_neighbors ai c') as Hn by set_solver.
      by apply elem_of_get_neighbors in Hn as (_ & ? & _).
Qed.

(** Every cell that has been chosen is a known safe. *)
Lemma played_moves_made ai :
  played ai → MinesweeperAI.moves_made ai ⊆ MinesweeperAI.safes ai.
Proof.
  induction 1 as [h w|o ai c n _ IH]; [set_solver|].
  rewrite add_knowledge_safes, add_knowledge_moves_made. set_solver.
Qed.

Lemma row_game_well_formed : well_formed row_game.
Proof.
  split; [reflexivity|].
  intros c Hc. simpl in Hc. apply elem_of_singleton in Hc as ->.
  unfold on_board. simpl. lia.
Qed.

(** * The claims of the specification *)

(** ** Monotonicity of the known sets *)

(** C9.  [safes], [mines] and [moves_made] only grow: each of them, as it
    was before a call of [add_knowledge], is a subset of what it is in the
    state the call leaves, whether the call returned or raised; the same
    holds for [mark_mine] and [mark_safe], the other operations that write to
    the state. *)
Theorem known_sets_grow o ai c n :
  grows ai (MinesweeperAI.add_knowledge o ai c n).1 ∧
  grows ai (MinesweeperAI.mark_mine ai c) ∧
  grows ai (MinesweeperAI.mark_safe ai c).
Proof.
  unfold grows. split_and!; simpl;
    rewrite ?add_knowledge_safes, ?add_knowledge_mines,
      ?add_knowledge_moves_made;
    set_solver.
Qed.

(** ** Idempotence of the marks *)

(** C10.  [MinesweeperAI.mark_mine] and [MinesweeperAI.mark_safe] are
    idempotent: a second call with the same cell changes neither [mines],
    [safes] nor any sentence, since the first call took the cell out of
    every sentence and no count is lowered twice. *)
Theorem mark_twice ai c :
  MinesweeperAI.mark_mine (MinesweeperAI.mark_mine ai c) c =
    MinesweeperAI.mark_mine ai c ∧
  MinesweeperAI.mark_safe (MinesweeperAI.mark_safe ai c) c =
    MinesweeperAI.mark_safe ai c.
Proof.
  unfold MinesweeperAI.mark_mine, MinesweeperAI.mark_safe. simpl.
  split; f_equal.
  - set_solver.
  - rewrite <- list_fmap_compose. apply list_fmap_ext.
    intros i s _. apply sentence_mark_mine_twice.
  - set_solver.
  - rewrite <- list_fmap_compose. apply list_fmap_ext.
    intros i s _. apply sentence_mark_safe_twice.
Qed.

(** ** One pass, not a fixpoint *)

(** C1, counterexample.  With [A = (0, 1)], [B = (1, 1)] and [C = (1, 0)],
    the observation of [(0, 2)] brings the sentences [({A, B, C}, 1)] and
    [({A, B}, 1)] together.  The call returns, the derived sentence
    [({C}, 0)] is in the knowledge it leaves, and [C] is not in [safes]: the
    state is no fixpoint. *)
Lemma scenario3_not_a_fixpoint :
  MinesweeperAI.knowledge scenario3_before =
    [Sentence.Make {[(0, 1); (1, 1); (1, 0)]} 1] ∧
  MinesweeperAI.knowledge
    (after_step4 insertion_order scenario3_before (0, 2) 1) =
    [Sentence.Make {[(0, 1); (1, 1); (1, 0)]} 1;
     Sentence.Make {[(0, 1); (1, 1)]} 1] ∧
  (MinesweeperAI.add_knowledge insertion_order scenario3_before (0, 2) 1).2
    = None ∧
  MinesweeperAI.knowledge scenario3_after =
    [Sentence.Make {[(0, 1); (1, 1); (1, 0)]} 1;
     Sentence.Make {[(0, 1); (1, 1)]} 1;
     Sentence.Make {[(1, 0)]} 0] ∧
  MinesweeperAI.safes scenario3_after =
    {[(0, 0); (0, 2); (0, 3); (1, 2); (1, 3)]} ∧
  (1, 0) ∉ MinesweeperAI.safes scenario3_after.
Proof.
  split_and!; [by vm_compute..|by_evaluation].
Qed.

(** C1, as amended.  A call makes one pass: the cells it adds to [safes]
    and [mines] are the cells given by the sentences that are in the list
    before the subset step, so a sentence derived by a call gives no cell in
    that call.  A sentence of count zero that a call leaves in the list
    gives its cells to [safes] in the next call, and a sentence whose count
    is the number of its cells gives them to [mines] in the next call,
    unless that call observes one of them. *)
Theorem add_knowledge_single_pass o ai c n :
  MinesweeperAI.safes (MinesweeperAI.add_knowledge o ai c n).1 =
    {[c]} ∪ MinesweeperAI.safes ai ∪
    MinesweeperAI.inferred_safes
      (MinesweeperAI.scan
         (MinesweeperAI.knowledge (MinesweeperAI.record_move ai c n))) ∧
  MinesweeperAI.mines (MinesweeperAI.add_knowledge o ai c n).1 =
    MinesweeperAI.mines ai ∪
    MinesweeperAI.inferred_mines
      (MinesweeperAI.scan
         (MinesweeperAI.knowledge (MinesweeperAI.record_move ai c n))) ∧
  (∀ s, s ∈ MinesweeperAI.knowledge ai → Sentence.count s = 0 →
        Sentence.cells s ⊆
          MinesweeperAI.safes (MinesweeperAI.add_knowledge o ai c n).1) ∧
  (∀ s, s ∈ MinesweeperAI.knowledge ai →
        Sentence.count s = Z.of_nat (size (Sentence.cells s)) →
        c ∉ Sentence.cells s →
        Sentence.cells s ⊆
          MinesweeperAI.mines (MinesweeperAI.add_knowledge o ai c n).1).
Proof.
  split_and!; [apply add_knowledge_safes|apply add_knowledge_mines|..].
  - intros s Hs H0 x Hx. rewrite add_knowledge_safes.
    destruct (decide (x = c)) as [->|Hne]; [set_solver|].
    apply elem_of_union_r, elem_of_scan_safes.
    exists (Sentence.mark_safe s c). split_and!.
    + rewrite record_move_knowledge. apply elem_of_app. left.
      apply list_elem_of_fmap. by exists s.
    + by rewrite sentence_mark_safe_count.
    + rewrite sentence_mark_safe_cells. set_solver.
  - intros s Hs Hfull Hc x Hx. rewrite add_knowledge_mines.
    apply elem_of_union_r, elem_of_scan_mines.
    exists s. split_and!; [|done..].
    rewrite record_move_knowledge. apply elem_of_app. left.
    apply list_elem_of_fmap. exists s.
    by rewrite sentence_mark_safe_absent.
Qed.

(** The cell [C] of the scenario is marked safe by the call that follows,
    here the observation of [(1, 2)]; and when [(0, 0)] has two mines
    around it, the derived sentence is [({C}, 1)], and the call that follows
    puts [C] into [mines]. *)
Lemma add_knowledge_single_pass_witness :
  Sentence.cells (Sentence.Make {[(1, 0)]} 0) ⊆
    MinesweeperAI.safes
      (MinesweeperAI.add_knowledge insertion_order scenario3_after (1, 2) 1).1 ∧
  Sentence.cells (Sentence.Make {[(1, 0)]} 1) ⊆
    MinesweeperAI.mines
      (MinesweeperAI.add_knowledge insertion_order
         (MinesweeperAI.add_knowledge insertion_order
            (MinesweeperAI.add_knowledge insertion_order
               (MinesweeperAI.add_knowledge insertion_order
                  (MinesweeperAI.init 2 4) (0, 3) 0).1 (0, 0) 2).1 (0, 2) 1).1
         (1, 2) 1).1.
Proof.
  split.
  - apply (add_knowledge_single_pass insertion_order scenario3_after (1, 2) 1).
    + apply (list_elem_of_lookup_2 _ 2%nat). by vm_compute.
    + reflexivity.
  - apply (add_knowledge_single_pass insertion_order _ (1, 2) 1).
    + apply (list_elem_of_lookup_2 _ 2%nat). by vm_compute.
    + by vm_compute.
    + by_evaluation.
Defined.

(** ** Inferred cells and the other sentences *)

(** C2, the code at the failing input.  The observation of [(0, 3)] with one
    mine around it gives the sentence [({(0, 2)}, 1)], so [(0, 2)] is
    inferred to be a mine.  Step 4.4 adds the cell to [mines] with
    [self.mines.add] and not with [self.mark_mine], so the call returns with
    [(0, 2)] in [mines] and still in the sentence [({(0, 0), (0, 2)}, 1)],
    where [mark_mine] would have left [({(0, 0)}, 0)].  Every set that the
    call iterates over has one element at most, so the order of iteration
    plays no part. *)
Theorem inferred_mine_stays_in_sentences :
  MinesweeperAI.knowledge stale_before =
    [Sentence.Make {[(0, 0); (0, 2)]} 1] ∧
  MinesweeperAI.add_knowledge insertion_order stale_before (0, 3) 1 =
    ({| MinesweeperAI.height := 1; MinesweeperAI.width := 4;
        MinesweeperAI.moves_made := {[(0, 1); (0, 3)]};
        MinesweeperAI.mines := {[(0, 2)]};
        MinesweeperAI.safes := {[(0, 1); (0, 3)]};
        MinesweeperAI.knowledge := [Sentence.Make {[(0, 0); (0, 2)]} 1] |},
     None) ∧
  MinesweeperAI.knowledge (MinesweeperAI.mark_mine stale_before (0, 2)) =
    [Sentence.Make {[(0, 0)]} 0].
Proof.
  split_and!.
  - by vm_compute.
  - by vm_compute.
  - by vm_compute.
Qed.

(** ** No validation of an observation *)

(** C3, counterexample.  On a fresh board of three rows and three columns,
    neither the count 9, nor the cell [(7, 7)] outside the board, nor a cell
    marked as a mine before is refused: each call returns without an
    exception and has written to the state. *)
Lemma observation_not_validated :
  MinesweeperAI.add_knowledge insertion_order (MinesweeperAI.init 3 3) (1, 1) 9 =
    ({| MinesweeperAI.height := 3; MinesweeperAI.width := 3;
        MinesweeperAI.moves_made := {[(1, 1)]};
        MinesweeperAI.mines := ∅;
        MinesweeperAI.safes := {[(1, 1)]};
        MinesweeperAI.knowledge :=
          [Sentence.Make
             {[(0, 0); (0, 1); (0, 2); (1, 0); (1, 2); (2, 0); (2, 1); (2, 2)]}
             9] |}, None) ∧
  MinesweeperAI.add_knowledge insertion_order (MinesweeperAI.init 3 3) (7, 7) 0 =
    ({| MinesweeperAI.height := 3; MinesweeperAI.width := 3;
        MinesweeperAI.moves_made := {[(7, 7)]};
        MinesweeperAI.mines := ∅;
        MinesweeperAI.safes := {[(7, 7)]};
        MinesweeperAI.knowledge := [Sentence.Make ∅ 0] |}, None) ∧
  (MinesweeperAI.add_knowledge insertion_order
     (MinesweeperAI.mark_mine (MinesweeperAI.init 3 3) (1, 1)) (1, 1) 0).2 = None ∧
  MinesweeperAI.moves_made
    (MinesweeperAI.add_knowledge insertion_order
       (MinesweeperAI.mark_mine (MinesweeperAI.init 3 3) (1, 1)) (1, 1) 0).1 =
    {[(1, 1)]}.
Proof.
  split_and!.
  - by vm_compute.
  - by vm_compute.
  - by vm_compute.
  - by vm_compute.
Qed.

(** C3, as amended.  [add_knowledge] checks nothing about its arguments:
    for every cell and every count the call begins by writing to the state,
    so the cell is in [moves_made] and in [safes] in the state it leaves,
    and the sentence of the observation has been appended by Step 3.  The
    only exception a call can raise is the [Exception] of the subset step,
    which is raised after Steps 1 to 4 have written to the state and leaves
    what they wrote. *)
Theorem add_knowledge_no_validation o ai c n :
  c ∈ MinesweeperAI.moves_made (MinesweeperAI.add_knowledge o ai c n).1 ∧
  c ∈ MinesweeperAI.safes (MinesweeperAI.add_knowledge o ai c n).1 ∧
  MinesweeperAI.knowledge (MinesweeperAI.record_move ai c n) =
    ((λ s, Sentence.mark_safe s c) <$> MinesweeperAI.knowledge ai)
      ++ [fresh_sentence ai c n] ∧
  ((MinesweeperAI.add_knowledge o ai c n).2 = None ∨
   MinesweeperAI.add_knowledge o ai c n =
     (after_step4 o ai c n, Some Exception)).
Proof.
  split_and!.
  - rewrite add_knowledge_moves_made. set_solver.
  - rewrite add_knowledge_safes. set_solver.
  - apply record_move_knowledge.
  - rewrite add_knowledge_steps.
    destruct (MinesweeperAI.infer_sentences o (after_step4 o ai c n))
      as [ai' [e|]] eqn:Hs; [right|by left].
    by apply infer_sentences_raised in Hs as (-> & -> & _).
Qed.

(** ** Known safes and known mines *)

(** C4, counterexample.  [mark_mine] of a cell that is known to be safe
    raises nothing and leaves the cell in both sets, and so does the
    observation of a cell that is known to be a mine. *)
Lemma cell_both_safe_and_mine :
  MinesweeperAI.safes
    (MinesweeperAI.mark_mine
       (MinesweeperAI.mark_safe (MinesweeperAI.init 8 8) (0, 0)) (0, 0)) ∩
  MinesweeperAI.mines
    (MinesweeperAI.mark_mine
       (MinesweeperAI.mark_safe (MinesweeperAI.init 8 8) (0, 0)) (0, 0)) =
    {[(0, 0)]} ∧
  (MinesweeperAI.add_knowledge insertion_order
     (MinesweeperAI.mark_mine (MinesweeperAI.init 3 3) (1, 1)) (1, 1) 0).2 = None ∧
  (1, 1) ∈ MinesweeperAI.safes
    (MinesweeperAI.add_knowledge insertion_order
       (MinesweeperAI.mark_mine (MinesweeperAI.init 3 3) (1, 1)) (1, 1) 0).1 ∧
  (1, 1) ∈ MinesweeperAI.mines
    (MinesweeperAI.add_knowledge insertion_order
       (MinesweeperAI.mark_mine (MinesweeperAI.init 3 3) (1, 1)) (1, 1) 0).1.
Proof.
  split_and!; [by vm_compute..|by_evaluation|by_evaluation].
Qed.

(** C4, as amended.  In every state that a game on a board reaches from a
    fresh engine, by truthful observations and by marks that agree with the
    board, no cell is both in [safes] and in [mines].  No operation checks
    this, in any state: [mark_mine] of a known safe and [mark_safe] of a
    known mine leave the cell in both sets, and so does [add_knowledge] of a
    known mine, whether the call returns or raises; the one exception it can
    raise is the [Exception] of the subset step. *)
Theorem safes_mines_disjoint M ai :
  (reachable M ai → MinesweeperAI.safes ai ## MinesweeperAI.mines ai) ∧
  (∀ c, c ∈ MinesweeperAI.safes ai →
     c ∈ MinesweeperAI.safes (MinesweeperAI.mark_mine ai c) ∩
         MinesweeperAI.mines (MinesweeperAI.mark_mine ai c)) ∧
  (∀ c, c ∈ MinesweeperAI.mines ai →
     c ∈ MinesweeperAI.safes (MinesweeperAI.mark_safe ai c) ∩
         MinesweeperAI.mines (MinesweeperAI.mark_safe ai c)) ∧
  (∀ o c n, c ∈ MinesweeperAI.mines ai →
     c ∈ MinesweeperAI.safes (MinesweeperAI.add_knowledge o ai c n).1 ∩
         MinesweeperAI.mines (MinesweeperAI.add_knowledge o ai c n).1 ∧
     ((MinesweeperAI.add_knowledge o ai c n).2 = None ∨
      (MinesweeperAI.add_knowledge o ai c n).2 = Some Exception)).
Proof.
  split_and!.
  - intros [Hm Hs _]%reachable_consistent x Hsafe Hmine.
    apply (Hs x); [done|]. by apply Hm.
  - intros c Hc. simpl. set_solver.
  - intros c Hc. simpl. set_solver.
  - intros o c n Hc. split; [|apply add_knowledge_exception].
    rewrite add_knowledge_safes, add_knowledge_mines. set_solver.
Qed.

(** The board of one row and four columns with its one mine at [(0, 2)],
    after the truthful observations of [(0, 1)] and of [(0, 3)]: the mine is
    a known mine, and it is no known safe; marked safe, it is both. *)
Lemma safes_mines_disjoint_witness :
  MinesweeperAI.mines
    (MinesweeperAI.add_knowledge insertion_order stale_before (0, 3) 1).1 =
    {[(0, 2)]} ∧
  MinesweeperAI.safes
    (MinesweeperAI.add_knowledge insertion_order stale_before (0, 3) 1).1 ##
  MinesweeperAI.mines
    (MinesweeperAI.add_knowledge insertion_order stale_before (0, 3) 1).1 ∧
  (0, 2) ∈
    MinesweeperAI.safes
      (MinesweeperAI.mark_safe
         (MinesweeperAI.add_knowledge insertion_order stale_before (0, 3) 1).1
         (0, 2)) ∩
    MinesweeperAI.mines
      (MinesweeperAI.mark_safe
         (MinesweeperAI.add_knowledge insertion_order stale_before (0, 3) 1).1
         (0, 2)).
Proof.
  split; [by vm_compute|]. split.
  - apply (proj1 (safes_mines_disjoint {[(0, 2)]}
             (MinesweeperAI.add_knowledge insertion_order stale_before (0, 3) 1).1)).
    unfold stale_before.
    apply reachable_add_knowledge;
      [apply reachable_add_knowledge; [apply reachable_init|]|];
      (split; [by_evaluation|by vm_compute]).
  - apply (proj1 (proj2 (proj2 (safes_mines_disjoint {[(0, 2)]}
             (MinesweeperAI.add_knowledge insertion_order stale_before (0, 3) 1).1)))).
    by_evaluation.
Defined.

(** ** The count of a sentence *)




(** ** Sentences without cells *)

(** C6, counterexample.  On a board of one cell the sentence of the
    observation has no cells and is appended, and stays: a sentence without
    cells gives no fact, so Step 4 does not remove it.  On the board of two
    rows and two columns the observation of [(0, 1)] leaves two sentences
    with the same cells, and the subset step appends the sentence derived
    from them, which has no cells. *)
Lemma empty_sentences_added :
  MinesweeperAI.add_knowledge insertion_order (MinesweeperAI.init 1 1) (0, 0) 0 =
    ({| MinesweeperAI.height := 1; MinesweeperAI.width := 1;
        MinesweeperAI.moves_made := {[(0, 0)]};
        MinesweeperAI.mines := ∅;
        MinesweeperAI.safes := {[(0, 0)]};
        MinesweeperAI.knowledge := [Sentence.Make ∅ 0] |}, None) ∧
  MinesweeperAI.add_knowledge insertion_order square_before (0, 1) 1 =
    ({| MinesweeperAI.height := 2; MinesweeperAI.width := 2;
        MinesweeperAI.moves_made := {[(0, 0); (0, 1)]};
        MinesweeperAI.mines := ∅;
        MinesweeperAI.safes := {[(0, 0); (0, 1)]};
        MinesweeperAI.knowledge :=
          [Sentence.Make {[(1, 0); (1, 1)]} 1;
           Sentence.Make {[(1, 0); (1, 1)]} 1;
           Sentence.Make ∅ 0] |}, None).
Proof.
  split.
  - by vm_compute.
  - by vm_compute.
Qed.

(** C6, as amended.  Nothing is kept out of the knowledge for having no
    cells.  Step 3 appends the sentence of the observation whatever its
    cells, and when it has none it is in the knowledge that the call leaves.
    When the subset step returns, the sentence derived from every pair it
    selects is in the knowledge, and for two sentences with the same cells
    that is a sentence without cells. *)
Theorem sentences_added_without_cells o ai c n :
  MinesweeperAI.knowledge (MinesweeperAI.record_move ai c n) =
    ((λ s, Sentence.mark_safe s c) <$> MinesweeperAI.knowledge ai)
      ++ [fresh_sentence ai c n] ∧
  (Sentence.cells (fresh_sentence ai c n) = ∅ →
   fresh_sentence ai c n ∈
     MinesweeperAI.knowledge (MinesweeperAI.add_knowledge o ai c n).1) ∧
  (∀ a b,
     (MinesweeperAI.add_knowledge o ai c n).2 = None →
     pair_of (MinesweeperAI.knowledge (after_step4 o ai c n)) a b →
     derived a b ∈ MinesweeperAI.knowledge (MinesweeperAI.add_knowledge o ai c n).1 ∧
     (Sentence.cells a = Sentence.cells b → Sentence.cells (derived a b) = ∅)).
Proof.
  split_and!.
  - apply record_move_knowledge.
  - intros Hempty. rewrite add_knowledge_steps.
    apply infer_sentences_keeps, infer_cells_keeps.
    + rewrite record_move_knowledge. apply elem_of_app. right.
      by apply list_elem_of_singleton.
    + by intros [_ ?].
    + by intros [_ ?].
  - intros a b. rewrite add_knowledge_steps. intros Hnone Hp. split.
    + destruct (MinesweeperAI.infer_sentences o (after_step4 o ai c n))
        as [ai' e] eqn:Hs. simpl in *. subst e.
      apply infer_sentences_returns in Hs as (added & -> & _ & Hadded & _).
      apply elem_of_app. right. apply Hadded. by exists a, b.
    + intros Heq. unfold derived. simpl. rewrite Heq. set_solver.
Qed.

(** The two cases on the boards of the counterexample. *)
Lemma sentences_added_without_cells_witness :
  fresh_sentence (MinesweeperAI.init 1 1) (0, 0) 0 ∈
    MinesweeperAI.knowledge
      (MinesweeperAI.add_knowledge insertion_order
         (MinesweeperAI.init 1 1) (0, 0) 0).1 ∧
  derived (Sentence.Make {[(1, 0); (1, 1)]} 1) (Sentence.Make {[(1, 0); (1, 1)]} 1) ∈
    MinesweeperAI.knowledge
      (MinesweeperAI.add_knowledge insertion_order square_before (0, 1) 1).1.
Proof.
  split.
  - apply (sentences_added_without_cells insertion_order). by vm_compute.
  - apply (sentences_added_without_cells insertion_order square_before (0, 1) 1).
    + by vm_compute.
    + apply (pair_of_earlier _ 0%nat 1%nat); [by vm_compute..|lia|done].
Defined.

(** ** The negative count in the subset step *)

(** C7.  Let [KB] be the knowledge that Steps 1 to 4 leave.  The pairs of
    the subset step are the sentences [A = KB[i]] and [B = KB[j]] where the
    cells of [A] are a strict subset of those of [B], or a subset and [A]
    comes before [B] in the list.  Whenever [B.count - A.count] is negative
    for such a pair, the call raises [Exception] to its caller and leaves
    the state as Step 4 left it, so nothing is appended; and when the call
    returns, it has appended to [KB] only, and no appended sentence has a
    negative count. *)
Theorem negative_count_raises o ai c n :
  (∀ i j a b,
     MinesweeperAI.knowledge (after_step4 o ai c n) !! i = Some a →
     MinesweeperAI.knowledge (after_step4 o ai c n) !! j = Some b →
     Sentence.cells a ⊂ Sentence.cells b ∨
       (Sentence.cells a ⊆ Sentence.cells b ∧ (i < j)%nat) →
     Sentence.count b - Sentence.count a < 0 →
     MinesweeperAI.add_knowledge o ai c n =
       (after_step4 o ai c n, Some Exception)) ∧
  ((MinesweeperAI.add_knowledge o ai c n).2 = None →
   ∃ added,
     MinesweeperAI.knowledge (MinesweeperAI.add_knowledge o ai c n).1 =
       MinesweeperAI.knowledge (after_step4 o ai c n) ++ added ∧
     Forall (λ s, 0 ≤ Sentence.count s) added).
Proof.
  rewrite add_knowledge_steps. split.
  - intros i j a b Ha Hb Hsub Hneg.
    apply (infer_sentences_raises o _ a b); [|done].
    destruct Hsub as [Hstrict|[Hsub Hlt]].
    + by eapply pair_of_strict.
    + by eapply pair_of_earlier.
  - destruct (MinesweeperAI.infer_sentences o (after_step4 o ai c n))
      as [ai' e] eqn:Hs. simpl. intros ->.
    apply infer_sentences_returns in Hs as (added & Hk & _ & Hadded & Hnn).
    exists added. split; [done|]. apply Forall_forall.
    intros s (a & b & Hp & ->)%Hadded. simpl. by apply Hnn.
Qed.

(** On the board of two rows and two columns, the observation of [(0, 0)]
    with two mines around it and then with one: the sentence of count two
    comes first, the subset step derives the count [1 - 2], and the call
    raises. *)
Lemma negative_count_raises_witness :
  MinesweeperAI.add_knowledge insertion_order
    (MinesweeperAI.add_knowledge insertion_order
       (MinesweeperAI.init 2 2) (0, 0) 2).1 (0, 0) 1 =
  (after_step4 insertion_order
     (MinesweeperAI.add_knowledge insertion_order
        (MinesweeperAI.init 2 2) (0, 0) 2).1 (0, 0) 1,
   Some Exception).
Proof.
  apply (proj1 (negative_count_raises insertion_order _ (0, 0) 1) 0%nat 1%nat
           (Sentence.Make {[(0, 1); (1, 0); (1, 1)]} 2)
           (Sentence.Make {[(0, 1); (1, 0); (1, 1)]} 1)).
  - by vm_compute.
  - by vm_compute.
  - right. split; [done|lia].
  - reflexivity.
Defined.

(** ** The random move *)

(** C8, counterexample.  The cell [(0, 1)] is on the board, has not been
    chosen and is not known to be a mine; with a generator that gives 0
    every time both rounds draw [(0, 0)], and the move is [None]. *)
Lemma random_move_none_with_candidate :
  in_grid row_before (0, 1) ∧
  candidate row_before (0, 1) ∧
  MinesweeperAI.make_random_move row_before (λ _, 0) = inr None.
Proof.
  split_and!.
  - by vm_compute.
  - by_evaluation.
  - by vm_compute.
Qed.

(** C8, as amended.  On a board with cells [make_random_move] raises
    nothing and draws at most [height * width] cells of the board: it
    returns the first cell drawn that has not been chosen and is not known
    to be a mine, and [None] exactly when every cell drawn has been chosen
    or is known to be a mine.  So a cell it returns is on the board, not
    chosen and not a known mine, and it returns [None] when no cell of the
    board is left. *)
Theorem make_random_move_bounded ai rng :
  0 < MinesweeperAI.height ai → 0 < MinesweeperAI.width ai →
  (∃ r, MinesweeperAI.make_random_move ai rng = inr r) ∧
  (∀ c, MinesweeperAI.make_random_move ai rng = inr (Some c) →
        in_grid ai c ∧ candidate ai c ∧
        ∃ k, (k < Z.to_nat (MinesweeperAI.height ai * MinesweeperAI.width ai))%nat ∧
             c = cell_of ai rng k ∧
             ∀ k', (k' < k)%nat → ¬ candidate ai (cell_of ai rng k')) ∧
  (MinesweeperAI.make_random_move ai rng = inr None ↔
   ∀ k, (k < Z.to_nat (MinesweeperAI.height ai * MinesweeperAI.width ai))%nat →
        ¬ candidate ai (cell_of ai rng k)) ∧
  ((∀ c, in_grid ai c → ¬ candidate ai c) →
   MinesweeperAI.make_random_move ai rng = inr None).
Proof.
  intros Hh Hw. rewrite make_random_move_first_candidate by done.
  set (r := Z.to_nat (MinesweeperAI.height ai * MinesweeperAI.width ai)).
  assert (first_candidate ai rng 0 r = None ↔
          ∀ k, (k < r)%nat → ¬ candidate ai (cell_of ai rng k)) as Hnone.
  { rewrite first_candidate_None. split; intros Hall k Hk; apply Hall; lia. }
  split; [by eexists|]. split; [|split].
  - intros c [= Hc]. apply first_candidate_Some in Hc
      as (k & Hk & -> & Hcand & Hbefore).
    split; [by apply draw_in_grid|]. split; [done|].
    exists k. split; [lia|]. split; [done|].
    intros k' Hk'. apply Hbefore. lia.
  - split; [intros [= Hn]; by apply Hnone|intros Hall; f_equal; by apply Hnone].
  - intros Hall. f_equal. apply Hnone. intros k _.
    by apply Hall, draw_in_grid.
Qed.

(** On the board of the counterexample a generator that counts up draws
    [(0, 0)] and then [(0, 1)], which is returned. *)
Lemma make_random_move_bounded_witness :
  in_grid row_before (0, 1) ∧ candidate row_before (0, 1).
Proof.
  destruct (make_random_move_bounded row_before (λ k, Z.of_nat (k `div` 2)))
    as (_ & Hsome & _); [done..|].
  destruct (Hsome (0, 1)) as (Hg & Hc & _); [by vm_compute|].
  by split.
Defined.

(** ** The games above in any order of iteration *)

(** Every call of the games above stages one sentence at most and selects
    one pair at most, so what is stated of them for the insertion order
    holds in every order of iteration. *)
Lemma games_any_order o :
  (MinesweeperAI.add_knowledge o (MinesweeperAI.init 2 4) (0, 3) 0 =
   MinesweeperAI.add_knowledge insertion_order (MinesweeperAI.init 2 4) (0, 3) 0) ∧
  (MinesweeperAI.add_knowledge o
     (MinesweeperAI.add_knowledge insertion_order
        (MinesweeperAI.init 2 4) (0, 3) 0).1 (0, 0) 1 =
   MinesweeperAI.add_knowledge insertion_order
     (MinesweeperAI.add_knowledge insertion_order
        (MinesweeperAI.init 2 4) (0, 3) 0).1 (0, 0) 1) ∧
  (MinesweeperAI.add_knowledge o scenario3_before (0, 2) 1 =
   MinesweeperAI.add_knowledge insertion_order scenario3_before (0, 2) 1) ∧
  (MinesweeperAI.add_knowledge o (MinesweeperAI.init 1 4) (0, 1) 1 =
   MinesweeperAI.add_knowledge insertion_order (MinesweeperAI.init 1 4) (0, 1) 1) ∧
  (MinesweeperAI.add_knowledge o stale_before (0, 3) 1 =
   MinesweeperAI.add_knowledge insertion_order stale_before (0, 3) 1) ∧
  (MinesweeperAI.add_knowledge o (MinesweeperAI.init 3 3) (1, 1) 9 =
   MinesweeperAI.add_knowledge insertion_order (MinesweeperAI.init 3 3) (1, 1) 9) ∧
  (MinesweeperAI.add_knowledge o (MinesweeperAI.init 3 3) (7, 7) 0 =
   MinesweeperAI.add_knowledge insertion_order (MinesweeperAI.init 3 3) (7, 7) 0) ∧
  (MinesweeperAI.add_knowledge o
     (MinesweeperAI.mark_mine (MinesweeperAI.init 3 3) (1, 1)) (1, 1) 0 =
   MinesweeperAI.add_knowledge insertion_order
     (MinesweeperAI.mark_mine (MinesweeperAI.init 3 3) (1, 1)) (1, 1) 0) ∧
  (MinesweeperAI.add_knowledge o
     (MinesweeperAI.mark_mine (MinesweeperAI.init 1 2) (0, 1)) (0, 0) 0 =
   MinesweeperAI.add_knowledge insertion_order
     (MinesweeperAI.mark_mine (MinesweeperAI.init 1 2) (0, 1)) (0, 0) 0) ∧
  (MinesweeperAI.add_knowledge o (MinesweeperAI.init 1 1) (0, 0) 0 =
   MinesweeperAI.add_knowledge insertion_order (MinesweeperAI.init 1 1) (0, 0) 0) ∧
  (MinesweeperAI.add_knowledge o (MinesweeperAI.init 2 2) (0, 0) 1 =
   MinesweeperAI.add_knowledge insertion_order (MinesweeperAI.init 2 2) (0, 0) 1) ∧
  (MinesweeperAI.add_knowledge o square_before (0, 1) 1 =
   MinesweeperAI.add_knowledge insertion_order square_before (0, 1) 1) ∧
  (MinesweeperAI.add_knowledge o (MinesweeperAI.init 1 2) (0, 0) 0 =
   MinesweeperAI.add_knowledge insertion_order (MinesweeperAI.init 1 2) (0, 0) 0).
Proof. split_and!; apply add_knowledge_any_order; vm_compute; lia. Qed.

(** The order of iteration can show in the list of sentences.  On a board
    of two rows and three columns, after the observations of [(0, 2)] and
    [(0, 0)], the observation of [(1, 2)] stages two derived sentences, and
    the knowledge that the call leaves has them in the order of the
    iteration. *)
Lemma order_of_iteration_shows :
  MinesweeperAI.knowledge
    (MinesweeperAI.add_knowledge insertion_order
       (MinesweeperAI.add_knowledge insertion_order
          (MinesweeperAI.add_knowledge insertion_order
             (MinesweeperAI.init 2 3) (0, 2) 1).1 (0, 0) 1).1 (1, 2) 1).1 ≠
  MinesweeperAI.knowledge
    (MinesweeperAI.add_knowledge reverse_order
       (MinesweeperAI.add_knowledge insertion_order
          (MinesweeperAI.add_knowledge insertion_order
             (MinesweeperAI.init 2 3) (0, 2) 1).1 (0, 0) 1).1 (1, 2) 1).1.
Proof. vm_compute. intros H. discriminate H. Qed.

(** * Further properties of the engine *)

(** X1.  Soundness of [add_knowledge]: on a state that is consistent with
    a board, a truthful observation (a cell without a mine, with the number
    of mines among its neighbours) does not make the call raise, and leaves
    a state that is consistent with the board: its known mines are mines,
    its known safes are not, and each of its sentences counts the mines
    among its cells. *)
Theorem truthful_observation_sound M o ai c n :
  consistent M ai → truthful M ai c n →
  (MinesweeperAI.add_knowledge o ai c n).2 = None ∧
  consistent M (MinesweeperAI.add_knowledge o ai c n).1.
Proof. intros Hc Ht. by apply add_knowledge_consistent. Qed.

Lemma truthful_observation_sound_witness :
  (MinesweeperAI.add_knowledge insertion_order
     (MinesweeperAI.init 1 4) (0, 1) 1).2 = None ∧
  consistent {[(0, 2)]}
    (MinesweeperAI.add_knowledge insertion_order
       (MinesweeperAI.init 1 4) (0, 1) 1).1.
Proof.
  apply (truthful_observation_sound {[(0, 2)]} insertion_order).
  - apply init_consistent.
  - split; [by_evaluation|by vm_compute].
Defined.

(** X2.  An observation without mines clears the neighbours: when no
    neighbour of the cell is a known mine, [add_knowledge(cell, 0)] leaves
    every neighbour of the cell in [safes], in every order of iteration and
    whatever the knowledge. *)
Theorem clear_observation_frees_neighbors o ai c :
  MinesweeperAI.get_neighbors ai c ## MinesweeperAI.mines ai →
  MinesweeperAI.get_neighbors ai c ⊆
  MinesweeperAI.safes (MinesweeperAI.add_knowledge o ai c 0).1.
Proof. intros Hd. by apply add_knowledge_clear. Qed.

Lemma clear_observation_frees_neighbors_witness :
  MinesweeperAI.get_neighbors (MinesweeperAI.init 3 3) (1, 1) ⊆
  MinesweeperAI.safes
    (MinesweeperAI.add_knowledge insertion_order
       (MinesweeperAI.init 3 3) (1, 1) 0).1.
Proof.
  apply (clear_observation_frees_neighbors insertion_order
           (MinesweeperAI.init 3 3) (1, 1)).
  by_evaluation.
Defined.

(** X3.  An observation that counts every unknown neighbour marks them
    all: when the count is the number of the neighbours of the cell that
    are not known safes, [add_knowledge] leaves every one of them in
    [mines]. *)
Theorem full_observation_marks_neighbors o ai c n :
  n = Z.of_nat (size (MinesweeperAI.get_neighbors ai c ∖ MinesweeperAI.safes ai)) →
  MinesweeperAI.get_neighbors ai c ∖ MinesweeperAI.safes ai ⊆
  MinesweeperAI.mines (MinesweeperAI.add_knowledge o ai c n).1.
Proof.
  intros Hn x Hx. rewrite add_knowledge_mines.
  destruct (decide (x ∈ MinesweeperAI.mines ai)) as [|Hnew]; [set_solver|].
  apply elem_of_union. right. apply elem_of_scan_mines.
  exists (fresh_sentence ai c n). split; [apply fresh_sentence_in_knowledge|].
  assert (c ∉ MinesweeperAI.get_neighbors ai c) as Hc.
  { rewrite elem_of_get_neighbors. tauto. }
  unfold fresh_sentence. simpl.
  replace (MinesweeperAI.get_neighbors ai c ∖ ({[c]} ∪ MinesweeperAI.safes ai))
    with (MinesweeperAI.get_neighbors ai c ∖ MinesweeperAI.safes ai) by set_solver.
  split; [|set_solver]. subst n.
  rewrite (size_difference_inter
    (MinesweeperAI.get_neighbors ai c ∖ MinesweeperAI.safes ai)
    (MinesweeperAI.mines ai)). lia.
Qed.

Lemma full_observation_marks_neighbors_witness :
  MinesweeperAI.get_neighbors (MinesweeperAI.init 3 3) (0, 0) ∖
    MinesweeperAI.safes (MinesweeperAI.init 3 3) ⊆
  MinesweeperAI.mines
    (MinesweeperAI.add_knowledge insertion_order
       (MinesweeperAI.init 3 3) (0, 0) 3).1.
Proof.
  apply (full_observation_marks_neighbors insertion_order
           (MinesweeperAI.init 3 3) (0, 0) 3).
  reflexivity.
Defined.

(** X4.  On a game whose board agrees with its set of mines,
    [Minesweeper.nearby_mines] raises nothing, for a cell inside or outside
    the board, and returns the number of mines among the cells that
    [MinesweeperAI.get_neighbors] returns for an engine of the same height
    and width. *)
Theorem nearby_mines_counts_neighbors g ai c :
  well_formed g →
  Minesweeper.height g = MinesweeperAI.height ai →
  Minesweeper.width g = MinesweeperAI.width ai →
  Minesweeper.nearby_mines g c =
  inr (Z.of_nat (size (MinesweeperAI.get_neighbors ai c ∩ Minesweeper.mines g))).
Proof. intros Hwf Hh Hw. by apply nearby_mines_neighbors. Qed.

Lemma nearby_mines_counts_neighbors_witness :
  Minesweeper.nearby_mines row_game (0, 1) =
  inr (Z.of_nat (size (MinesweeperAI.get_neighbors (MinesweeperAI.init 1 3) (0, 1)
                         ∩ Minesweeper.mines row_game))).
Proof.
  apply (nearby_mines_counts_neighbors row_game (MinesweeperAI.init 1 3) (0, 1)).
  - apply row_game_well_formed.
  - reflexivity.
  - reflexivity.
Defined.

(** X5.  [get_neighbors] returns the cells of the board, other than the
    cell itself, that are within one row and one column of the cell: at
    most eight cells, the diagonal ones included. *)
Theorem get_neighbors_adjacent ai c x :
  x ∈ MinesweeperAI.get_neighbors ai c ↔
  x ≠ c ∧ in_grid ai x ∧ c.1 - 1 ≤ x.1 ≤ c.1 + 1 ∧ c.2 - 1 ≤ x.2 ≤ c.2 + 1.
Proof. apply elem_of_get_neighbors. Qed.

(** X6.  The subset step is sound: on a state whose sentences hold on a
    board, Steps 5.1 to 5.4 raise nothing, append one sentence for each
    distinct sentence derived from a pair that the step selects, and every
    sentence appended holds on the board, with a count that is not
    negative. *)
Theorem subset_step_sound M o ai :
  Forall (holds M) (MinesweeperAI.knowledge ai) →
  ∃ added,
    (MinesweeperAI.infer_sentences o ai).2 = None ∧
    MinesweeperAI.knowledge (MinesweeperAI.infer_sentences o ai).1 =
      MinesweeperAI.knowledge ai ++ added ∧
    NoDup added ∧
    (∀ s, s ∈ added ↔
       ∃ a b, pair_of (MinesweeperAI.knowledge ai) a b ∧ s = derived a b) ∧
    Forall (λ s, holds M s ∧ 0 ≤ Sentence.count s) added.
Proof.
  intros Hk. rewrite Forall_forall in Hk.
  destruct (MinesweeperAI.infer_sentences o ai) as [ai' [e|]] eqn:Hi.
  - apply infer_sentences_raised in Hi as (_ & _ & a & b & Hp & Hneg).
    destruct (pair_of_elem _ _ _ Hp) as [Ha Hb].
    destruct (holds_derived M a b) as [_ ?];
      eauto using pair_of_subseteq. lia.
  - apply infer_sentences_returns in Hi as (added & Hk' & Hnd & Hadded & _).
    exists added. split_and!; [done..|].
    apply Forall_forall. intros s (a & b & Hp & ->)%Hadded.
    destruct (pair_of_elem _ _ _ Hp) as [Ha Hb].
    apply holds_derived; eauto using pair_of_subseteq.
Qed.

(** The state that Steps 1 to 4 leave in the third call of the game on the
    board of two rows and four columns, with the mine at [(0, 1)]: Step 5
    appends [({(1, 0)}, 0)]. *)
Lemma subset_step_sound_witness :
  ∃ added,
    (MinesweeperAI.infer_sentences insertion_order
       (after_step4 insertion_order scenario3_before (0, 2) 1)).2 = None ∧
    MinesweeperAI.knowledge
      (MinesweeperAI.infer_sentences insertion_order
         (after_step4 insertion_order scenario3_before (0, 2) 1)).1 =
      MinesweeperAI.knowledge
        (after_step4 insertion_order scenario3_before (0, 2) 1) ++ added ∧
    NoDup added ∧
    (∀ s, s ∈ added ↔
       ∃ a b, pair_of (MinesweeperAI.knowledge
                         (after_step4 insertion_order scenario3_before (0, 2) 1))
                a b ∧ s = derived a b) ∧
    Forall (λ s, holds {[(0, 1)]} s ∧ 0 ≤ Sentence.count s) added.
Proof.
  apply (subset_step_sound {[(0, 1)]} insertion_order
           (after_step4 insertion_order scenario3_before (0, 2) 1)).
  assert (MinesweeperAI.knowledge
            (after_step4 insertion_order scenario3_before (0, 2) 1) =
          [Sentence.Make {[(0, 1); (1, 0); (1, 1)]} 1;
           Sentence.Make {[(0, 1); (1, 1)]} 1]) as -> by (by vm_compute).
  constructor; [by vm_compute|]. constructor; [by vm_compute|]. constructor.
Defined.

(** X7.  On a board without cells, [make_random_move] raises the
    [ValueError] of [random.randrange] in its first round. *)
Theorem random_move_on_empty_board ai rng :
  ¬ (0 < MinesweeperAI.height ai ∧ 0 < MinesweeperAI.width ai) →
  MinesweeperAI.make_random_move ai rng = inl ValueError.
Proof. intros Hg. by apply make_random_move_empty_grid. Qed.

Lemma random_move_on_empty_board_witness :
  MinesweeperAI.make_random_move (MinesweeperAI.init 0 8) (λ _, 5) =
  inl ValueError.
Proof.
  apply (random_move_on_empty_board (MinesweeperAI.init 0 8)).
  simpl. lia.
Defined.

(** X8.  [make_safe_move], in every order in which the loop visits
    [self.safes]: a cell it returns is a known safe that has not been
    chosen, and it returns [None] exactly when every known safe has been
    chosen. *)
Theorem make_safe_move_spec co ai :
  match MinesweeperAI.make_safe_move co ai with
  | Some c => c ∈ MinesweeperAI.safes ai ∧ c ∉ MinesweeperAI.moves_made ai
  | None => MinesweeperAI.safes ai ⊆ MinesweeperAI.moves_made ai
  end.
Proof.
  destruct (MinesweeperAI.make_safe_move co ai) as [c|] eqn:Hm.
  - by apply make_safe_move_Some in Hm.
  - by apply make_safe_move_None in Hm.
Qed.

(** X9.  A safe move is safe: in a state reached from a fresh engine by
    operations that agree with a board, the cell that [make_safe_move]
    returns holds no mine of the board. *)
Theorem safe_move_not_a_mine M co ai c :
  reachable M ai → MinesweeperAI.make_safe_move co ai = Some c → c ∉ M.
Proof.
  intros Hr%reachable_consistent [Hc _]%make_safe_move_Some.
  destruct Hr as [_ Hs _]. set_solver.
Qed.

Lemma safe_move_not_a_mine_witness :
  MinesweeperAI.make_safe_move elements_order row_game_play = Some (0, 1) ∧
  (0, 1) ∉ ({[(0, 2)]} : gset cell).
Proof.
  split; [reflexivity|].
  apply (safe_move_not_a_mine {[(0, 2)]} elements_order row_game_play (0, 1)).
  - apply reachable_add_knowledge; [apply reachable_init|].
    split; [by_evaluation|reflexivity].
  - reflexivity.
Defined.

(** X10.  After an observation without mines the engine has a safe move:
    when no neighbour of the cell is a known mine and some neighbour has
    not been chosen, [make_safe_move] after [add_knowledge(cell, 0)] returns
    a cell, which is not the observed cell and has not been chosen. *)
Theorem safe_move_after_clear_observation o co ai c x :
  MinesweeperAI.get_neighbors ai c ## MinesweeperAI.mines ai →
  x ∈ MinesweeperAI.get_neighbors ai c →
  x ∉ MinesweeperAI.moves_made ai →
  ∃ c', MinesweeperAI.make_safe_move co
          (MinesweeperAI.add_knowledge o ai c 0).1 = Some c' ∧
        c' ≠ c ∧ c' ∉ MinesweeperAI.moves_made ai.
Proof.
  intros Hd Hx Hm.
  destruct (MinesweeperAI.make_safe_move co
              (MinesweeperAI.add_knowledge o ai c 0).1) as [c'|] eqn:Hmove.
  - exists c'. split; [done|].
    apply make_safe_move_Some in Hmove as [_ Hnot].
    rewrite add_knowledge_moves_made in Hnot. set_solver.
  - apply make_safe_move_None in Hmove.
    rewrite add_knowledge_moves_made in Hmove.
    pose proof (add_knowledge_clear ai o c Hd x Hx) as Hsafe.
    apply Hmove in Hsafe.
    assert (x ≠ c) by (apply elem_of_get_neighbors in Hx; tauto).
    set_solver.
Qed.

Lemma safe_move_after_clear_observation_witness :
  ∃ c', MinesweeperAI.make_safe_move elements_order
          (MinesweeperAI.add_knowledge insertion_order
             (MinesweeperAI.init 1 3) (0, 0) 0).1 = Some c' ∧
        c' ≠ (0, 0) ∧ c' ∉ MinesweeperAI.moves_made (MinesweeperAI.init 1 3).
Proof.
  apply (safe_move_after_clear_observation insertion_order elements_order
           (MinesweeperAI.init 1 3) (0, 0) (0, 1)).
  - by_evaluation.
  - by_evaluation.
  - by_evaluation.
Defined.

(** X11.  The observed cell is in no sentence: when a call of
    [add_knowledge] ends, by a return or by the exception of the subset
    step, no sentence of the knowledge mentions the cell of the call. *)
Theorem observed_cell_leaves_sentences o ai c n :
  Forall (λ s, c ∉ Sentence.cells s)
    (MinesweeperAI.knowledge (MinesweeperAI.add_knowledge o ai c n).1).
Proof.
  apply Forall_forall.
  intros s [Hs|(a & b & _ & Hb & _ & ->)]%add_knowledge_knowledge.
  - by eapply record_move_without_cell.
  - simpl. apply record_move_without_cell in Hb. set_solver.
Qed.

(** X12.  What Step 4 removes: the sentences staged for removal are the
    sentences of the list that give a fact, each once, and the list loses
    one occurrence of each of them and nothing else.  So a sentence that
    gives no fact is never lost, and of a sentence that occurs twice one
    occurrence stays. *)
Theorem step4_removes_one_copy o ai c n :
  ∃ removed,
    NoDup removed ∧
    (∀ s, s ∈ removed ↔
       s ∈ MinesweeperAI.knowledge (MinesweeperAI.record_move ai c n) ∧
       (gives_safes s ∨ gives_mines s)) ∧
    MinesweeperAI.knowledge (MinesweeperAI.record_move ai c n) ≡ₚ
      removed ++ MinesweeperAI.knowledge (after_step4 o ai c n).
Proof.
  unfold after_step4.
  destruct (infer_cells_ok o (MinesweeperAI.record_move ai c n))
    as (KB' & -> & Hp).
  exists (order_sentences o
            (MinesweeperAI.sentences_to_remove
               (MinesweeperAI.scan
                  (MinesweeperAI.knowledge (MinesweeperAI.record_move ai c n))))).
  split_and!.
  - apply NoDup_order_sentences, scan_remove_NoDup.
  - intros s. by rewrite elem_of_order_sentences, elem_of_scan_remove.
  - done.
Qed.

(** X13.  The engine reasons about cells of the board only: after any
    sequence of calls of [add_knowledge] on a fresh engine, whatever the
    cells and the counts of the calls, every cell of every sentence and
    every known mine is a cell of the board. *)
Theorem sentences_stay_on_board ai : played ai → within_grid ai.
Proof. intros Hp. by apply played_within_grid. Qed.

Lemma sentences_stay_on_board_witness : within_grid scenario3_after.
Proof.
  apply (sentences_stay_on_board scenario3_after).
  unfold scenario3_after, scenario3_before.
  apply played_add_knowledge, played_add_knowledge, played_add_knowledge,
    played_init.
Defined.

(** X14.  [known_safes] and [known_mines] are sound: for a sentence that
    holds on a board, the cells that [known_safes] returns hold no mine and
    the cells that [known_mines] returns are mines. *)
Theorem known_cells_sound M s :
  holds M s →
  default ∅ (Sentence.known_safes s) ## M ∧
  default ∅ (Sentence.known_mines s) ⊆ M.
Proof.
  intros Hs. unfold Sentence.known_safes, Sentence.known_mines. split.
  - destruct (decide _) as [H0|]; simpl; [|set_solver].
    intros x Hx. by eapply holds_zero.
  - destruct (decide _) as [Hfull|]; simpl; [|set_solver].
    intros x Hx. by eapply holds_full.
Qed.

Lemma known_cells_sound_witness :
  default ∅ (Sentence.known_safes (Sentence.Make {[(0, 1); (1, 1)]} 0))
    ## ({[(2, 2)]} : gset cell) ∧
  default ∅ (Sentence.known_mines (Sentence.Make {[(0, 1); (1, 1)]} 0))
    ⊆ ({[(2, 2)]} : gset cell).
Proof.
  apply (known_cells_sound {[(2, 2)]} (Sentence.Make {[(0, 1); (1, 1)]} 0)).
  by vm_compute.
Defined.

(** X15.  A sentence never gives a cell both ways: the cells that
    [known_safes] returns and the cells that [known_mines] returns have no
    cell in common, whatever the sentence. *)
Theorem known_safes_mines_exclusive s :
  default ∅ (Sentence.known_safes s) ## default ∅ (Sentence.known_mines s).
Proof.
  unfold Sentence.known_safes, Sentence.known_mines.
  destruct (decide (Sentence.count s = 0)) as [H0|]; simpl; [|set_solver].
  destruct (decide _) as [Hfull|]; simpl; [|set_solver].
  assert (size (Sentence.cells s) = 0%nat) as Hsz%size_empty_inv by lia.
  set_solver.
Qed.

(** X16.  The marks of a sentence and the truth: for a sentence that holds
    on a board and a cell of the sentence, [mark_mine] leaves a sentence
    that holds exactly when the cell is a mine, and [mark_safe] one that
    holds exactly when it is not. *)
Theorem marks_keep_truth_iff M s c :
  holds M s → c ∈ Sentence.cells s →
  (holds M (Sentence.mark_mine s c) ↔ c ∈ M) ∧
  (holds M (Sentence.mark_safe s c) ↔ c ∉ M).
Proof.
  intros Hs Hc. split.
  - by apply holds_mark_mine_iff.
  - by apply holds_mark_safe_iff.
Qed.

Lemma marks_keep_truth_iff_witness :
  (holds {[(0, 1)]} (Sentence.mark_mine (Sentence.Make {[(0, 1); (1, 1)]} 1) (0, 1))
     ↔ (0, 1) ∈ ({[(0, 1)]} : gset cell)) ∧
  (holds {[(0, 1)]} (Sentence.mark_safe (Sentence.Make {[(0, 1); (1, 1)]} 1) (0, 1))
     ↔ (0, 1) ∉ ({[(0, 1)]} : gset cell)).
Proof.
  apply (marks_keep_truth_iff {[(0, 1)]} (Sentence.Make {[(0, 1); (1, 1)]} 1) (0, 1)).
  - by vm_compute.
  - by_evaluation.
Defined.

(** X17.  The sentence of Step 3 does not depend on the order of
    iteration: in whatever orders the loops of Steps 3.3 and 3.4 visit
    [self.safes] and [self.mines], the sentence appended is the neighbours
    of the cell that are neither known safes nor known mines, with the
    count less the number of known mines among the neighbours that are not
    known safes. *)
Theorem new_sentence_any_order (co1 co2 : cell_order) ai c n :
  foldl Sentence.mark_mine
    (foldl Sentence.mark_safe
       (Sentence.Make (MinesweeperAI.get_neighbors ai c) n)
       (order_cells co1 ({[c]} ∪ MinesweeperAI.safes ai)))
    (order_cells co2 (MinesweeperAI.mines ai)) =
  fresh_sentence ai c n ∧
  MinesweeperAI.knowledge (MinesweeperAI.record_move ai c n) =
  ((λ s, Sentence.mark_safe s c) <$> MinesweeperAI.knowledge ai)
    ++ [fresh_sentence ai c n].
Proof.
  split; [|apply record_move_knowledge].
  rewrite mark_safe_foldl, mark_mine_foldl by apply NoDup_order_cells.
  by rewrite !list_to_set_order_cells.
Qed.

(** * Further properties of the game *)

(** X18.  [Minesweeper.__init__] returns the game asked for: on a board
    with cells, when the number of mines asked for is not negative and at
    most the number of distinct cells drawn in the rounds, the loop ends
    within these rounds and [__init__] returns a game of the height and the
    width asked for, with exactly the number of mines asked for, all of them
    drawn cells of the board, whose board holds [True] at exactly the cells
    of [mines], and with no mine found. *)
Theorem init_places_mines h w wanted rng rounds :
  0 < h → 0 < w →
  0 ≤ wanted ≤ Z.of_nat (size (drawn h w rng 0 rounds)) →
  ∃ g,
    Minesweeper.init h w wanted rng rounds = Some (inr g) ∧
    Minesweeper.height g = h ∧ Minesweeper.width g = w ∧
    Z.of_nat (size (Minesweeper.mines g)) = wanted ∧
    Minesweeper.board g = board_of h w (Minesweeper.mines g) ∧
    Minesweeper.mines g ⊆ drawn h w rng 0 rounds ∧
    (∀ c, c ∈ Minesweeper.mines g → 0 ≤ c.1 < h ∧ 0 ≤ c.2 < w) ∧
    Minesweeper.mines_found g = ∅.
Proof.
  intros Hh Hw [H0 Hle]. unfold Minesweeper.init.
  destruct (place_mines_finishes rng wanted rounds 0
              {| Minesweeper.height := h; Minesweeper.width := w;
                 Minesweeper.mines := ∅;
                 Minesweeper.board := Minesweeper.empty_board h w;
                 Minesweeper.mines_found := ∅ |}) as [g Hg];
    cbn [Minesweeper.mines Minesweeper.height Minesweeper.width].
  - apply empty_game_well_formed.
  - done.
  - done.
  - rewrite size_empty. lia.
  - by rewrite union_empty_l_L.
  - exists g. split; [done|].
    pose proof (place_mines_within_drawn _ _ _ _ _ _
                  (empty_game_well_formed h w) Hg) as Hsub.
    cbn [Minesweeper.mines Minesweeper.height Minesweeper.width] in Hsub.
    rewrite union_empty_l_L in Hsub.
    apply place_mines_returns in Hg as ([Hb Hm] & Hsz & Hgh & Hgw & _ & Hf);
      [|apply empty_game_well_formed].
    simpl in Hgh, Hgw, Hf. rewrite Hgh, Hgw in Hb.
    split_and!; [done..| |done].
    intros c Hc. destruct (Hm c Hc) as [Hi Hj]. by rewrite Hgh in Hi; rewrite Hgw in Hj.
Qed.

Lemma init_places_mines_witness :
  ∃ g,
    Minesweeper.init 1 3 1 (λ _, 2) 1 = Some (inr g) ∧
    Minesweeper.height g = 1 ∧ Minesweeper.width g = 3 ∧
    Z.of_nat (size (Minesweeper.mines g)) = 1 ∧
    Minesweeper.board g = board_of 1 3 (Minesweeper.mines g) ∧
    Minesweeper.mines g ⊆ drawn 1 3 (λ _, 2) 0 1 ∧
    (∀ c, c ∈ Minesweeper.mines g → 0 ≤ c.1 < 1 ∧ 0 ≤ c.2 < 3) ∧
    Minesweeper.mines_found g = ∅.
Proof.
  apply (init_places_mines 1 3 1 (λ _, 2) 1); [lia|lia|].
  split; [lia|by vm_compute].
Defined.

(** X19.  [Minesweeper.__init__] does not return when it is asked for more
    mines than the board has cells, or for a negative number of mines: on a
    board with cells the loop that places the mines goes on for ever,
    whatever numbers are drawn. *)
Theorem init_never_returns h w wanted rng rounds :
  0 < h → 0 < w → wanted < 0 ∨ h * w < wanted →
  Minesweeper.init h w wanted rng rounds = None.
Proof.
  intros Hh Hw Hwanted.
  apply place_mines_never; [apply empty_game_well_formed|done..].
Qed.

Lemma init_never_returns_witness :
  Minesweeper.init 2 2 5 (λ k, Z.of_nat k) 100 = None.
Proof.
  apply (init_never_returns 2 2 5 (λ k, Z.of_nat k) 100); lia.
Defined.

(** X20.  When [Minesweeper.__init__] returns: on a board with cells it
    returns within a number of rounds exactly when the number of mines
    asked for is not negative and at most the number of distinct cells
    drawn in these rounds. *)
Theorem init_returns_iff h w wanted rng rounds :
  0 < h → 0 < w →
  (∃ g, Minesweeper.init h w wanted rng rounds = Some (inr g)) ↔
  0 ≤ wanted ≤ Z.of_nat (size (drawn h w rng 0 rounds)).
Proof.
  intros Hh Hw. unfold Minesweeper.init. split.
  - intros [g Hg].
    pose proof (place_mines_within_drawn _ _ _ _ _ _
                  (empty_game_well_formed h w) Hg) as Hsub.
    apply place_mines_returns in Hg as (_ & Hsz & _);
      [|apply empty_game_well_formed].
    simpl in Hsub. rewrite union_empty_l_L in Hsub.
    apply subseteq_size in Hsub. lia.
  - intros [H0 Hle].
    apply place_mines_finishes;
      cbn [Minesweeper.mines Minesweeper.height Minesweeper.width].
    + apply empty_game_well_formed.
    + done.
    + done.
    + rewrite size_empty. lia.
    + by rewrite union_empty_l_L.
Qed.

Lemma init_returns_iff_witness :
  (∃ g, Minesweeper.init 1 3 1 (λ _, 2) 1 = Some (inr g)) ↔
  0 ≤ 1 ≤ Z.of_nat (size (drawn 1 3 (λ _, 2) 0 1)).
Proof. apply (init_returns_iff 1 3 1 (λ _, 2) 1); lia. Defined.

(** X21.  [Minesweeper.__init__] on a board without cells: asked for no
    mine it returns the game without mines, and asked for any other number
    it raises the [ValueError] of [random.randrange] in the first round. *)
Theorem init_without_cells h w wanted rng rounds :
  ¬ (0 < h ∧ 0 < w) →
  Minesweeper.init h w wanted rng (S rounds) =
  if decide (wanted = 0)
  then Some (inr {| Minesweeper.height := h; Minesweeper.width := w;
                    Minesweeper.mines := ∅;
                    Minesweeper.board := Minesweeper.empty_board h w;
                    Minesweeper.mines_found := ∅ |})
  else Some (inl ValueError).
Proof.
  intros Hg. unfold Minesweeper.init. destruct (decide (wanted = 0)) as [->|Hne].
  - apply place_mines_done. cbn [Minesweeper.mines]. by rewrite size_empty.
  - apply place_mines_empty_grid;
      cbn [Minesweeper.mines Minesweeper.height Minesweeper.width]; [done|].
    rewrite size_empty. lia.
Qed.

Lemma init_without_cells_witness :
  Minesweeper.init 0 8 8 (λ _, 0) 1 =
  if decide (8 = 0)
  then Some (inr {| Minesweeper.height := 0; Minesweeper.width := 8;
                    Minesweeper.mines := ∅;
                    Minesweeper.board := Minesweeper.empty_board 0 8;
                    Minesweeper.mines_found := ∅ |})
  else Some (inl ValueError).
Proof. apply (init_without_cells 0 8 8 (λ _, 0) 0). lia. Defined.

(** X22.  [is_mine] follows Python's indexing: a negative row or column
    counts from the end of the board, so that [is_mine] answers for the
    cell at the wrapped position when that is a cell of the board, and
    raises [IndexError] otherwise. *)
Theorem is_mine_wraps g i j :
  well_formed g →
  Minesweeper.is_mine g (i, j) =
  if decide (on_board g (wrap (Minesweeper.height g) i,
                         wrap (Minesweeper.width g) j))
  then inr (bool_decide ((wrap (Minesweeper.height g) i,
                          wrap (Minesweeper.width g) j) ∈ Minesweeper.mines g))
  else inl IndexError.
Proof. intros Hwf. by apply is_mine_wrap. Qed.

Lemma is_mine_wraps_witness :
  Minesweeper.is_mine row_game (-1, -1) =
  if decide (on_board row_game (wrap (Minesweeper.height row_game) (-1),
                                wrap (Minesweeper.width row_game) (-1)))
  then inr (bool_decide ((wrap (Minesweeper.height row_game) (-1),
                          wrap (Minesweeper.width row_game) (-1))
                         ∈ Minesweeper.mines row_game))
  else inl IndexError.
Proof. apply (is_mine_wraps row_game (-1) (-1)). apply row_game_well_formed. Defined.

(** X23.  The game's answers are truthful observations: on a game whose
    board agrees with its mines and an engine of the same height and width
    that is consistent with the mines of the game, for a cell that
    [is_mine] reports to hold no mine, [nearby_mines] returns a count with
    which [add_knowledge] does not raise and leaves the engine consistent
    with the mines of the game. *)
Theorem game_observation_sound g o ai c :
  well_formed g →
  Minesweeper.height g = MinesweeperAI.height ai →
  Minesweeper.width g = MinesweeperAI.width ai →
  consistent (Minesweeper.mines g) ai →
  Minesweeper.is_mine g c = inr false →
  ∃ n, Minesweeper.nearby_mines g c = inr n ∧
       (MinesweeperAI.add_knowledge o ai c n).2 = None ∧
       consistent (Minesweeper.mines g) (MinesweeperAI.add_knowledge o ai c n).1.
Proof.
  intros Hwf Hh Hw Hc Hm.
  destruct (nearby_mines_truthful g ai c) as (n & Hn & Ht);
    [done..|by apply is_mine_false|].
  exists n. split; [done|]. by apply add_knowledge_consistent.
Qed.

Lemma game_observation_sound_witness :
  ∃ n, Minesweeper.nearby_mines row_game (0, 1) = inr n ∧
       (MinesweeperAI.add_knowledge insertion_order
          (MinesweeperAI.init 1 3) (0, 1) n).2 = None ∧
       consistent (Minesweeper.mines row_game)
         (MinesweeperAI.add_knowledge insertion_order
            (MinesweeperAI.init 1 3) (0, 1) n).1.
Proof.
  apply (game_observation_sound row_game insertion_order
           (MinesweeperAI.init 1 3) (0, 1)).
  - apply row_game_well_formed.
  - reflexivity.
  - reflexivity.
  - apply init_consistent.
  - reflexivity.
Defined.

(** X24.  The engine does not step on a mine with a safe move: in a game
    played on a board that agrees with its mines (the engine is told about
    cells that [is_mine] reports to hold no mine, with the counts of
    [nearby_mines]), the cell that [make_safe_move] returns is a cell for
    which [is_mine] returns [False], without an [IndexError]. *)
Theorem play_safe_move_is_no_mine g ai co c :
  well_formed g → plays g ai →
  MinesweeperAI.make_safe_move co ai = Some c →
  Minesweeper.is_mine g c = inr false.
Proof.
  intros Hwf Hp [Hs Hm]%make_safe_move_Some.
  destruct (played_safes ai c (plays_played g ai Hp) Hs) as [|[Hi Hj]]; [done|].
  destruct (plays_height_width g ai Hp) as [Hh Hw]. rewrite Hh in Hi. rewrite Hw in Hj.
  pose proof (reachable_consistent _ _ (plays_reachable g ai Hwf Hp))
    as [_ Hsafe _].
  unfold Minesweeper.is_mine. rewrite board_at_on_board by done.
  f_equal. apply bool_decide_eq_false. set_solver.
Qed.

Lemma play_safe_move_is_no_mine_witness :
  MinesweeperAI.make_safe_move elements_order row_game_play = Some (0, 1) ∧
  Minesweeper.is_mine row_game (0, 1) = inr false.
Proof.
  split; [reflexivity|].
  apply (play_safe_move_is_no_mine row_game row_game_play elements_order (0, 1)).
  - apply row_game_well_formed.
  - apply (plays_move row_game insertion_order (MinesweeperAI.init 1 3) (0, 0) 0).
    + exact (plays_init row_game).
    + reflexivity.
    + reflexivity.
  - reflexivity.
Defined.

(** X25.  A game that [__init__] returns is won from the start exactly
    when it was asked for no mine: [won] compares [mines_found], which is
    empty, with [mines]. *)
Theorem fresh_game_won h w wanted rng rounds g :
  Minesweeper.init h w wanted rng rounds = Some (inr g) →
  Minesweeper.won g = bool_decide (wanted = 0).
Proof.
  unfold Minesweeper.init. intros Hi.
  apply place_mines_returns in Hi as (_ & Hsz & _ & _ & _ & Hf);
    [|apply empty_game_well_formed].
  simpl in Hf. unfold Minesweeper.won. rewrite Hf. apply bool_decide_ext.
  split.
  - intros Heq. rewrite <- Heq, size_empty in Hsz. lia.
  - intros ->. symmetry. apply leibniz_equiv, size_empty_inv. lia.
Qed.

Lemma fresh_game_won_witness :
  Minesweeper.won row_game = bool_decide (1 = 0).
Proof.
  apply (fresh_game_won 1 3 1 (λ _, 2) 1 row_game).
  reflexivity.
Defined.

(** X26.  A play never raises: in a game played on a board that agrees
    with its mines, a call of [add_knowledge] for a cell that [is_mine]
    reports to hold no mine, with the count that [nearby_mines] returns,
    does not raise, whatever has been played before. *)
Theorem play_never_raises g o ai c n :
  well_formed g → plays g ai →
  Minesweeper.is_mine g c = inr false →
  Minesweeper.nearby_mines g c = inr n →
  (MinesweeperAI.add_knowledge o ai c n).2 = None.
Proof.
  intros Hwf Hp Hm Hn.
  destruct (plays_height_width g ai Hp) as [Hh Hw].
  destruct (nearby_mines_truthful g ai c) as (n' & Hn' & Ht);
    [done..|by apply is_mine_false|].
  rewrite Hn in Hn'. injection Hn' as ->.
  apply (add_knowledge_consistent (Minesweeper.mines g)); [|done].
  by apply reachable_consistent, plays_reachable.
Qed.

Lemma play_never_raises_witness :
  (MinesweeperAI.add_knowledge insertion_order row_game_play (0, 1) 1).2 = None.
Proof.
  apply (play_never_raises row_game insertion_order row_game_play (0, 1) 1).
  - apply row_game_well_formed.
  - apply (plays_move row_game insertion_order (MinesweeperAI.init 1 3) (0, 0) 0).
    + exact (plays_init row_game).
    + reflexivity.
    + reflexivity.
  - reflexivity.
  - reflexivity.
Defined.

(** X27.  When the engine has no safe move: after any sequence of calls
    of [add_knowledge] on a fresh engine every cell that has been chosen is
    a known safe, so that [make_safe_move] returns [None] exactly when the
    known safes are the cells that have been chosen. *)
Theorem no_safe_move_iff co ai :
  played ai →
  MinesweeperAI.moves_made ai ⊆ MinesweeperAI.safes ai ∧
  (MinesweeperAI.make_safe_move co ai = None ↔
   MinesweeperAI.safes ai = MinesweeperAI.moves_made ai).
Proof.
  intros Hp%played_moves_made. split; [done|].
  rewrite make_safe_move_None. split; [|by intros ->].
  intros Hsub. apply set_eq. set_solver.
Qed.

Lemma no_safe_move_iff_witness :
  MinesweeperAI.moves_made row_game_play ⊆ MinesweeperAI.safes row_game_play ∧
  (MinesweeperAI.make_safe_move elements_order row_game_play = None ↔
   MinesweeperAI.safes row_game_play = MinesweeperAI.moves_made row_game_play).
Proof.
  apply (no_safe_move_iff elements_order row_game_play).
  unfold row_game_play. apply played_add_knowledge, played_init.
Defined.

(** X28.  A random move can be asked of the game: in a game played on a
    board that agrees with its mines, a cell that [make_random_move]
    returns has not been chosen, and [is_mine] answers for it without an
    [IndexError], with [True] exactly when the cell is a mine. *)
Theorem play_random_move_on_board g ai rng c :
  well_formed g → plays g ai →
  MinesweeperAI.make_random_move ai rng = inr (Some c) →
  (c ∉ MinesweeperAI.moves_made ai) ∧
  Minesweeper.is_mine g c = inr (bool_decide (c ∈ Minesweeper.mines g)).
Proof.
  intros Hwf Hp.
  destruct (decide (0 < MinesweeperAI.height ai ∧ 0 < MinesweeperAI.width ai))
    as [[Hh Hw]|Hg]; [|by rewrite make_random_move_empty_grid].
  rewrite make_random_move_first_candidate by done.
  intros [= (k & _ & -> & [Hc _] & _)%first_candidate_Some].
  split; [done|].
  destruct (draw_in_grid ai rng k Hh Hw) as [_ [Hi Hj]].
  destruct (plays_height_width g ai Hp) as [Hgh Hgw].
  rewrite Hgh in Hi. rewrite Hgw in Hj.
  unfold Minesweeper.is_mine. by rewrite board_at_on_board.
Qed.

Lemma play_random_move_on_board_witness :
  ((0, 2) ∉ MinesweeperAI.moves_made (MinesweeperAI.init 1 3)) ∧
  Minesweeper.is_mine row_game (0, 2) =
  inr (bool_decide ((0, 2) ∈ Minesweeper.mines row_game)).
Proof.
  apply (play_random_move_on_board row_game (MinesweeperAI.init 1 3) (λ _, 2) (0, 2)).
  - apply row_game_well_formed.
  - exact (plays_init row_game).
  - reflexivity.
Defined.

(** X29.  When [Minesweeper.__init__] can return: on a board with cells
    there are draws with which [__init__] returns a game exactly when the
    number of mines asked for is not negative and at most the number of
    cells of the board. *)
Theorem init_can_return_iff h w wanted :
  0 < h → 0 < w →
  (∃ rng rounds g, Minesweeper.init h w wanted rng rounds = Some (inr g)) ↔
  0 ≤ wanted ≤ h * w.
Proof.
  intros Hh Hw. split.
  - intros (rng & rounds & g & Hg).
    destruct (decide (0 ≤ wanted ≤ h * w)) as [|Hout]; [done|].
    unfold Minesweeper.init in Hg.
    rewrite place_mines_never in Hg; [done|apply empty_game_well_formed|done..|].
    simpl. lia.
  - intros [H0 Hle]. exists (row_major w), (Z.to_nat wanted).
    apply place_mines_finishes;
      cbn [Minesweeper.mines Minesweeper.height Minesweeper.width].
    + apply empty_game_well_formed.
    + done.
    + done.
    + rewrite size_empty. lia.
    + rewrite union_empty_l_L, drawn_row_major by lia. lia.
Qed.

Lemma init_can_return_iff_witness :
  (∃ rng rounds g, Minesweeper.init 1 3 3 rng rounds = Some (inr g)) ↔
  0 ≤ 3 ≤ 1 * 3.
Proof. apply (init_can_return_iff 1 3 3); lia. Defined.
